(** * Fixed-window rate limiter: a shallow embedding and its properties

    The development follows the Go packages of the repository:
    - [memory]           internal/storage/memory/memory.go (the in-process store),
    - [config]           config/config.go (client table and default),
    - [internal_limiter] internal/limiter/limiter.go (lazy-TTL engine over a [Store]),
    - [limiter]          limiter/limiter.go and limiter/fixed_window.go
                         (epoch-truncated engine over a [RedisClient]),
    - [redis]            internal/storage/redis/redis.go (the remote store).

    Conventions.  Go's [int64] (and [int], taken to be 64 bits wide) is a [Z]
    with the wrap-around of every arithmetic operation written out
    ([wrap64]).  A [time.Time] is a point of the nanosecond time line, counted
    from Go's zero time (January 1, year 1, 00:00 UTC); a [time.Duration] is a
    signed number of nanoseconds.  Every call of [time.Now()] in the source is
    an explicit argument of the embedded function.  A Go [error] is an
    [option string], [None] being [nil].  A function that holds the store's
    mutex for its whole body is one atomic state transition. *)

From Stdlib Require Import ZArith Lia List.
From stdpp Require Import base option gmap strings pretty list.

Local Open Scope Z_scope.

(** ** Go base types *)

Abbreviation Time := Z (only parsing).
Abbreviation Duration := Z (only parsing).
Abbreviation error := (option string) (only parsing).

Module Go.

Definition MinInt64 : Z := - 2 ^ 63.
Definition MaxInt64 : Z := 2 ^ 63 - 1.

(* Two's complement reduction of a mathematical integer to int64. *)
Definition wrap64 (z : Z) : Z := (z + 2 ^ 63) mod 2 ^ 64 - 2 ^ 63.

Definition add64 (a b : Z) : Z := wrap64 (a + b).
Definition sub64 (a b : Z) : Z := wrap64 (a - b).

Definition Second : Duration := 1000000000.
Definition Minute : Duration := 60 * Second.

(* time.Time{} *)
Definition zeroTime : Time := 0.

(* Seconds between the zero time and the Unix epoch (unixToInternal). *)
Definition unixToInternal : Z := 62135596800.

Definition Before (t u : Time) : bool := t <? u.
Definition After (t u : Time) : bool := u <? t.
Definition IsZero (t : Time) : bool := t =? zeroTime.
Definition Add (t : Time) (d : Duration) : Time := t + d.

(* t.Sub(u) saturates at the ends of the Duration range. *)
Definition Sub (t u : Time) : Duration :=
  if t - u <? MinInt64 then MinInt64
  else if MaxInt64 <? t - u then MaxInt64
  else t - u.

(* t.Truncate(d): t rounded down to a multiple of d since the zero time;
   t itself when d <= 0. *)
Definition Truncate (t : Time) (d : Duration) : Time :=
  if d <=? 0 then t else t - t mod d.

(* t.Unix(): whole seconds since January 1, 1970 UTC. *)
Definition Unix (t : Time) : Z := t / Second - unixToInternal.

End Go.

Import Go.

(** ** Package memory *)

Module memory.

Record Entry := { Count : Z; Expiry : Time }.

(* MemoryStore.m is a map[string]*Entry: a key is absent, bound to the nil
   pointer ([Some None]) or bound to an entry.  Every *Entry is allocated by
   Increment and reachable from its map slot only, so the in-place
   atomic.AddInt64 is an update of that slot. *)
Abbreviation MemoryStore := (gmap string (option Entry)).

Definition NewMemoryStore : MemoryStore := ∅.

(* What one tick of cleanupLoop keeps. *)
Definition kept (now : Time) (e : option Entry) : bool :=
  match e with
  | None => false
  | Some e => negb (Before (Expiry e) now)
  end.

(* One tick of cleanupLoop: the body of [for range ticker.C]. *)
Definition cleanupSweep (now : Time) (s : MemoryStore) : MemoryStore :=
  filter (λ kv, kept now kv.2 = true) s.

Definition Increment (s : MemoryStore) (now : Time) (key : string) (ttl : Duration)
  : MemoryStore * (Z * Time * error) :=
  let create :=
    let e := {| Count := 1; Expiry := Add now ttl |} in
    (<[key := Some e]> s, (1, Expiry e, None)) in
  match s !! key with
  | Some (Some e) =>
      if Before (Expiry e) now then create
      else
        let newv := add64 (Count e) 1 in
        (<[key := Some {| Count := newv; Expiry := Expiry e |}]> s,
         (newv, Expiry e, None))
  | _ => create
  end.

Definition Get (s : MemoryStore) (now : Time) (key : string)
  : MemoryStore * (Z * Time * error) :=
  match s !! key with
  | Some (Some e) =>
      if Before (Expiry e) now then (s, (0, zeroTime, None))
      else (s, (Count e, Expiry e, None))
  | _ => (s, (0, zeroTime, None))
  end.

(* The operations a client or the ticker can apply to a store. *)
Inductive Op :=
| OpIncrement (now : Time) (key : string) (ttl : Duration)
| OpGet (now : Time) (key : string)
| OpSweep (now : Time).

(* One operation: the next store and the count it returned, if any. *)
Definition step (s : MemoryStore) (o : Op) : MemoryStore * option Z :=
  match o with
  | OpIncrement now key ttl =>
      let '(s', (c, _, _)) := Increment s now key ttl in (s', Some c)
  | OpGet now key =>
      let '(s', (c, _, _)) := Get s now key in (s', None)
  | OpSweep now => (cleanupSweep now s, None)
  end.

(* A sequence of operations, with the counts returned by its Increments. *)
Fixpoint run (s : MemoryStore) (ops : list Op) : MemoryStore * list Z :=
  match ops with
  | [] => (s, [])
  | o :: ops =>
      let '(s1, r) := step s o in
      let '(s2, rs) := run s1 ops in
      (s2, match r with Some c => c :: rs | None => rs end)
  end.

End memory.

(** ** Package config *)

Module config.

Record ClientConfig := { Limit : Z; Window : Duration }.

Definition DefaultConfig : ClientConfig :=
  {| Limit := 100; Window := Minute |}.

Definition Clients : gmap string ClientConfig :=
  <["client-1" := {| Limit := 5; Window := 60 * Second |}]>
  (<["client-2" := {| Limit := 2; Window := 60 * Second |}]> ∅).

End config.

(** ** Package internal/limiter *)

Module internal_limiter.

Import config.

(* The Store interface.  The Time argument is the store's own reading of
   the clock during the call. *)
Class Store (S : Type) := {
  Increment : S → Time → string → Duration → S * (Z * Time * error);
  Get : S → Time → string → S * (Z * Time * error)
}.

#[global] Instance MemoryStore_Store : Store memory.MemoryStore := {|
  Increment := memory.Increment;
  Get := memory.Get
|}.

(* The two test doubles of limiter_test.go. *)
Record mockStoreError := MockStoreError {}.

#[global] Instance mockStoreError_Store : Store mockStoreError := {|
  Increment := λ m _ _ _, (m, (0, zeroTime, Some "mock increment error"%string));
  Get := λ m _ _, (m, (0, zeroTime, Some "mock get error"%string))
|}.

Record mockStorePastExpiry := { count : Z }.

#[global] Instance mockStorePastExpiry_Store : Store mockStorePastExpiry := {|
  Increment := λ m now _ _, (m, (add64 (count m) 1, Add now (-1 * Second), None));
  Get := λ m now _, (m, (count m, Add now (-1 * Second), None))
|}.

Record Limiter (S : Type) := NewLimiter {
  store : S;
  configs : gmap string ClientConfig
}.
Arguments NewLimiter {S} _ _.
Arguments store {S} _.
Arguments configs {S} _.

Definition keyForClient (client : string) : string := "rate:" +:+ client.

(* Allow returns (allowed, remaining, resetAt, err); [now] is Allow's own
   clock reading, [now_s] the one the store takes afterwards. *)
Definition Allow {S} `{Store S} (l : Limiter S) (now now_s : Time) (client : string)
  : Limiter S * (bool * Z * Time * error) :=
  let cfg :=
    match configs l !! client with
    | Some cfg => cfg
    | None => DefaultConfig
    end in
  let key := keyForClient client in
  let ttl := Window cfg in
  let '(s', (counter, expiry, err)) := Increment (store l) now_s key ttl in
  let l' := NewLimiter s' (configs l) in
  match err with
  | Some e => (l', (true, Limit cfg, zeroTime, Some e))
  | None =>
      let allowed := counter <=? Limit cfg in
      let remaining := sub64 (Limit cfg) counter in
      let remaining := if remaining <? 0 then 0 else remaining in
      if Before expiry now then (l', (allowed, remaining, zeroTime, None))
      else (l', (allowed, remaining, expiry, None))
  end.

(* Consecutive calls of Allow for one client, each with its two clock
   readings; the decisions in call order. *)
Fixpoint AllowSeq {S} `{Store S} (l : Limiter S) (client : string)
  (calls : list (Time * Time)) : Limiter S * list (bool * Z * Time * error) :=
  match calls with
  | [] => (l, [])
  | (now, now_s) :: calls =>
      let '(l1, d) := Allow l now now_s client in
      let '(l2, ds) := AllowSeq l1 client calls in
      (l2, d :: ds)
  end.

End internal_limiter.

(** ** Package limiter *)

Module limiter.

Record ClientLimit := { Requests : Z; Window : Duration }.

(* The RedisClient interface of limiter/redis.go.  The Time argument is the
   backend's clock reading when the command runs. *)
Class RedisClient (R : Type) := {
  Incr : R → Time → string → R * (Z * error);
  TTL : R → Time → string → R * (Duration * error);
  Expire : R → Time → string → Duration → R * (bool * error)
}.

Record RateLimiter (R : Type) := {
  redis : R;
  clientLimits : gmap string ClientLimit;
  defaultLimit : ClientLimit
}.
Arguments redis {R} _.
Arguments clientLimits {R} _.
Arguments defaultLimit {R} _.

Definition NewRateLimiter {R} (redis : R) (defaultLimit : ClientLimit) : RateLimiter R :=
  {| redis := redis; clientLimits := ∅; defaultLimit := defaultLimit |}.

Definition SetLimit {R} (r : RateLimiter R) (clientID : string) (limit : ClientLimit)
  : RateLimiter R :=
  {| redis := redis r;
     clientLimits := <[clientID := limit]> (clientLimits r);
     defaultLimit := defaultLimit r |}.

Definition GetLimit {R} (r : RateLimiter R) (clientID : string) : ClientLimit :=
  match clientLimits r !! clientID with
  | Some v => v
  | None => defaultLimit r
  end.

Definition with_redis {R} (r : RateLimiter R) (c : R) : RateLimiter R :=
  {| redis := c; clientLimits := clientLimits r; defaultLimit := defaultLimit r |}.

Definition windowStart (t : Time) (window : Duration) : Time := Truncate t window.

(* fmt.Sprintf("reatelimit:%s:%d", ClientID, ws.Unix()) *)
Definition generateKey (ClientID : string) (t : Time) (window : Duration) : string :=
  let ws := windowStart t window in
  "reatelimit:" +:+ ClientID +:+ ":" +:+ pretty (Unix ws).

(* fixedWindow.Allow returns (allowed, remaining, resetIn, err).  [now] is
   Allow's clock reading, [t_incr] and [t_exp] the backend's readings for
   the two commands. *)
Definition fixedWindow_Allow {R} `{RedisClient R} (rl : RateLimiter R)
  (now t_incr t_exp : Time) (clientID : string)
  : RateLimiter R * (bool * Z * Duration * error) :=
  let limit := GetLimit rl clientID in
  if (Requests limit <=? 0) || (Window limit <=? 0) then
    (rl, (false, 0, 0, Some ("invalid limit configuration for client " +:+ clientID)))
  else
    let key := generateKey clientID now (Window limit) in
    let '(r1, (count, err)) := Incr (redis rl) t_incr key in
    match err with
    | Some e => (with_redis rl r1, (false, 0, 0, Some e))
    | None =>
        let '(r2, err) :=
          if count =? 1 then
            let '(r2, (_, err)) := Expire r1 t_exp key (Window limit) in (r2, err)
          else (r1, None) in
        match err with
        | Some e => (with_redis rl r2, (false, 0, 0, Some e))
        | None =>
            let remaining := sub64 (Requests limit) count in
            let remaining := if remaining <? 0 then 0 else remaining in
            let ws := windowStart now (Window limit) in
            let resetIn := Sub (Add ws (Window limit)) now in
            let allowed := count <=? Requests limit in
            (with_redis rl r2, (allowed, remaining, resetIn, None))
        end
    end.

(* RateLimiter.Allow delegates to its impl, the fixedWindow. *)
Definition Allow {R} `{RedisClient R} (r : RateLimiter R)
  (now t_incr t_exp : Time) (clientID : string) :=
  fixedWindow_Allow r now t_incr t_exp clientID.

(* mockRedis of limiter_test.go: map[string]struct{count int64; ttl time.Time};
   reading a missing key gives the zero struct. *)
Record mockEntry := { count : Z; ttl : Time }.

Abbreviation mockRedis := (gmap string mockEntry).

Definition newMockRedis : mockRedis := ∅.

Definition mockLoad (m : mockRedis) (key : string) : mockEntry :=
  default {| count := 0; ttl := zeroTime |} (m !! key).

Definition mockIncr (m : mockRedis) (now : Time) (key : string) : mockRedis * (Z * error) :=
  let s := mockLoad m key in
  let s := if negb (IsZero (ttl s)) && After now (ttl s)
           then {| count := 0; ttl := zeroTime |} else s in
  let s := {| count := add64 (count s) 1; ttl := ttl s |} in
  (<[key := s]> m, (count s, None)).

Definition mockTTL (m : mockRedis) (now : Time) (key : string)
  : mockRedis * (Duration * error) :=
  let s := mockLoad m key in
  if IsZero (ttl s) then (m, (-1, None)) else (m, (Sub (ttl s) now, None)).

Definition mockExpire (m : mockRedis) (now : Time) (key : string) (d : Duration)
  : mockRedis * (bool * error) :=
  let s := mockLoad m key in
  let s := {| count := count s; ttl := Add now d |} in
  (<[key := s]> m, (true, None)).

#[global] Instance mockRedis_RedisClient : RedisClient mockRedis := {|
  Incr := mockIncr;
  TTL := mockTTL;
  Expire := mockExpire
|}.

(** Modelled from the spec: the StorageError of sections 4.1 and 7, "the
    backing Store could not complete the operation (I/O fault, timeout,
    protocol error)".  The source has no [RedisClient] that fails: its only
    test double, mockRedis, always succeeds, and the network client is the
    go-redis library.  [flaky] is a connection in front of a backend that
    fails the commands its schedule says: [Some e] fails the next command
    with [e], [None] lets it through, an empty schedule lets everything
    through.  It covers one kind of fault only, the command that is refused
    before it reaches the backend, whose state it therefore leaves as it
    was.  A reply lost after the backend applied the command is a
    StorageError as well and is not an instance of this model.  [flaky]
    serves to build concrete executions with an error in them; the general
    statements about failing commands quantify over every [RedisClient] and
    assume nothing about what a failed command did to the backend. *)
Record flaky (R : Type) := Flaky { inner : R; faults : list error }.
Arguments Flaky {R} _ _.
Arguments inner {R} _.
Arguments faults {R} _.

Definition through {R A} (f : flaky R) (zero : A) (cmd : R → R * (A * error))
  : flaky R * (A * error) :=
  match faults f with
  | Some e :: fs => (Flaky (inner f) fs, (zero, Some e))
  | None :: fs => let '(r, res) := cmd (inner f) in (Flaky r fs, res)
  | [] => let '(r, res) := cmd (inner f) in (Flaky r [], res)
  end.

#[global] Instance flaky_RedisClient {R} `{RedisClient R} : RedisClient (flaky R) := {|
  Incr := λ f now key, through f 0 (λ r, Incr r now key);
  TTL := λ f now key, through f 0 (λ r, TTL r now key);
  Expire := λ f now key d, through f false (λ r, Expire r now key d)
|}.

End limiter.

(** ** Package internal/storage/redis *)

Module redis.

Import limiter.

(* RedisStore.client is a go-redis client; the commands Increment issues are
   the three of [RedisClient].  pipe.Exec sends INCR and TTL in one round
   trip and reports the first error among them; a command that failed
   leaves its zero value in its Cmd. *)
Record RedisStore (R : Type) := NewRedisStore { client : R }.
Arguments NewRedisStore {R} _.
Arguments client {R} _.

Definition Increment {R} `{RedisClient R} (r : RedisStore R)
  (now t_pipe t_exp : Time) (key : string) (ttl : Duration)
  : RedisStore R * (Z * Time * error) :=
  let '(c1, (counter, e1)) := Incr (client r) t_pipe key in
  let '(c2, (currentTTL, e2)) := TTL c1 t_pipe key in
  let err := match e1 with Some e => Some e | None => e2 end in
  match err with
  | Some e =>
      (NewRedisStore c2, (0, zeroTime, Some ("redis pipeline error: " +:+ e)))
  | None =>
      if (currentTTL =? -1) || (currentTTL =? -2) then
        let '(c3, (_, e3)) := Expire c2 t_exp key ttl in
        match e3 with
        | Some e =>
            (NewRedisStore c3, (counter, zeroTime, Some ("redis expire error: " +:+ e)))
        | None => (NewRedisStore c3, (counter, Add now ttl, None))
        end
      else (NewRedisStore c2, (counter, Add now currentTTL, None))
  end.

End redis.

(** ** Package internal/middleware *)

Module middleware.

Import config internal_limiter.

(* What the middleware reads of a request: the value of the X-Client-ID
   header, empty when the header is absent. *)
Record Request := { XClientID : string }.

(* What has been written to the body: nothing, the text of http.Error, or
   the JSON object of sendRateLimitError with its "remaining" and optional
   "reset_at" fields. *)
Inductive Body :=
| NoBody
| ErrorText (msg : string)
| RateLimitExceeded (remaining : Z) (reset_at : option Z).

(* The state of an http.ResponseWriter: the status code once WriteHeader has
   run, the header map, the body.  Header names are kept as the source
   writes them; net/http canonicalises them on every access, which maps the
   names used here to distinct names. *)
Record ResponseWriter := {
  Code : option Z;
  Header : gmap string string;
  Written : Body
}.

Definition NewRecorder : ResponseWriter :=
  {| Code := None; Header := ∅; Written := NoBody |}.

Definition SetHeader (w : ResponseWriter) (k v : string) : ResponseWriter :=
  {| Code := Code w; Header := <[k := v]> (Header w); Written := Written w |}.

Definition StatusInternalServerError : Z := 500.
Definition StatusTooManyRequests : Z := 429.

(* http.Error(w, msg, code) *)
Definition Error (w : ResponseWriter) (msg : string) (code : Z) : ResponseWriter :=
  let w := {| Code := Code w; Header := delete "Content-Length"%string (Header w);
              Written := Written w |} in
  let w := SetHeader w "Content-Type" "text/plain; charset=utf-8" in
  let w := SetHeader w "X-Content-Type-Options" "nosniff" in
  {| Code := Some code; Header := Header w; Written := ErrorText msg |}.

Definition getClientID (r : Request) : string :=
  if String.eqb (XClientID r) "" then "default"%string else XClientID r.

Definition getLimit (clientID : string) : Z :=
  match Clients !! clientID with
  | Some cfg => Limit cfg
  | None => Limit DefaultConfig
  end.

Definition setRateLimitHeaders (w : ResponseWriter) (clientID : string)
  (remaining : Z) (resetAt : Time) : ResponseWriter :=
  let limit := getLimit clientID in
  let w := SetHeader w "X-RateLimit-Limit" (pretty limit) in
  let w := SetHeader w "X-RateLimit-Remaining" (pretty remaining) in
  if negb (IsZero resetAt) then SetHeader w "X-RateLimit-Reset" (pretty (Unix resetAt))
  else w.

Definition sendRateLimitError (w : ResponseWriter) (remaining : Z) (resetAt : Time)
  : ResponseWriter :=
  let w := SetHeader w "Content-Type" "application/json" in
  {| Code := Some StatusTooManyRequests;
     Header := Header w;
     Written := RateLimitExceeded remaining
                  (if negb (IsZero resetAt) then Some (Unix resetAt) else None) |}.

(* RateLimitMiddleware.Handler(next), applied to a writer and a request.
   The logger calls are left out. *)
Definition Handler {S} `{Store S} (next : ResponseWriter → Request → ResponseWriter)
  (l : Limiter S) (now now_s : Time) (w : ResponseWriter) (r : Request)
  : Limiter S * ResponseWriter :=
  let clientID := getClientID r in
  let '(l', (allowed, remaining, resetAt, err)) := Allow l now now_s clientID in
  match err with
  | Some _ => (l', Error w "Internal Server Error" StatusInternalServerError)
  | None =>
      let w := setRateLimitHeaders w clientID remaining resetAt in
      if negb allowed then (l', sendRateLimitError w remaining resetAt)
      else (l', next w r)
  end.

End middleware.

(** ** Package ratelimiter *)

Module ratelimiter.

Record Config := { Limit : Z; Window : Duration; BurstSize : Z }.

Record Result := {
  Allowed : bool;
  ResultLimit : Z;
  Remaining : Z;
  RetryAfter : Time;
  ResetAt : Time
}.

Record windowData := { count : Z; startTime : Time }.

(* FixedWindowLimiter.windows is a map[string]*windowData; AllowN is the only
   writer and stores fresh non-nil pointers, each reachable from its slot
   only. *)
Record FixedWindowLimiter := {
  config : Config;
  windows : gmap string windowData
}.

Definition NewFixedWindowLimiter (config : Config) : FixedWindowLimiter :=
  {| config := config; windows := ∅ |}.

Definition AllowN (l : FixedWindowLimiter) (now : Time) (key : string) (n : Z)
  : FixedWindowLimiter * (bool * error) :=
  let wd :=
    match windows l !! key with
    | Some wd => wd
    | None => {| count := 0; startTime := now |}
    end in
  let wd :=
    if Window (config l) <=? Sub now (startTime wd)
    then {| count := 0; startTime := now |} else wd in
  if add64 (count wd) n <=? Limit (config l) then
    ({| config := config l;
        windows := <[key := {| count := add64 (count wd) n;
                               startTime := startTime wd |}]> (windows l) |},
     (true, None))
  else
    ({| config := config l; windows := <[key := wd]> (windows l) |}, (false, None)).

Definition Allow (l : FixedWindowLimiter) (now : Time) (key : string)
  : FixedWindowLimiter * (bool * error) :=
  AllowN l now key 1.

Definition Reset (l : FixedWindowLimiter) (key : string) : FixedWindowLimiter * error :=
  ({| config := config l; windows := delete key (windows l) |}, None).

Definition GetLimit (l : FixedWindowLimiter) : Z := Limit (config l).

Definition GetResult (l : FixedWindowLimiter) (now : Time) (key : string)
  : Result * error :=
  let fresh :=
    {| Allowed := true; ResultLimit := Limit (config l);
       Remaining := Limit (config l); RetryAfter := zeroTime;
       ResetAt := Add now (Window (config l)) |} in
  match windows l !! key with
  | None => (fresh, None)
  | Some wd =>
      if Window (config l) <=? Sub now (startTime wd) then (fresh, None)
      else
        let resetAt := Add (startTime wd) (Window (config l)) in
        ({| Allowed := count wd <? Limit (config l);
            ResultLimit := Limit (config l);
            Remaining := Limit (config l);
            RetryAfter := resetAt;
            ResetAt := resetAt |}, None)
  end.

(* cleanupExpired: one tick of the cleanup goroutine. *)
Definition cleanupExpired (l : FixedWindowLimiter) (now : Time) : FixedWindowLimiter :=
  {| config := config l;
     windows :=
       filter (λ kv, (wrap64 (Window (config l) * 2) <=? Sub now (startTime kv.2)) = false)
         (windows l) |}.

End ratelimiter.

(** ** Vocabulary of the statements *)

(* Every slot holds an entry whose count lies between 1 and [n]. *)
Definition counts_within (n : Z) (s : memory.MemoryStore) : Prop :=
  ∀ k slot, s !! k = Some slot →
    ∃ e, slot = Some e ∧ 1 <= memory.Count e <= n.

(* The window an Increment at [now_s] lands in: the count so far and the
   expiry.  A key that is absent, nil or expired opens a new window. *)
Definition window_at (s : memory.MemoryStore) (now_s : Time) (key : string)
  (ttl : Duration) : Z * Time :=
  match s !! key with
  | Some (Some e) =>
      if Before (memory.Expiry e) now_s then (0, now_s + ttl)
      else (memory.Count e, memory.Expiry e)
  | _ => (0, now_s + ttl)
  end.

(* The configuration Limiter.Allow works with for a client. *)
Definition effective {S} (l : internal_limiter.Limiter S) (client : string)
  : config.ClientConfig :=
  default config.DefaultConfig (internal_limiter.configs l !! client).

(* The decision Limiter.Allow derives from a count and an expiry. *)
Definition decision (cfg : config.ClientConfig) (now : Time) (counter : Z)
  (expiry : Time) : bool * Z * Time * error :=
  (counter <=? config.Limit cfg,
   (if sub64 (config.Limit cfg) counter <? 0 then 0
    else sub64 (config.Limit cfg) counter),
   (if Before expiry now then zeroTime else expiry),
   None).

(* The fields of a decision (allowed, remaining, resetAt, err). *)
Definition allowed {T} (d : bool * Z * T * error) : bool := d.1.1.1.
Definition remaining {T} (d : bool * Z * T * error) : Z := d.1.1.2.
Definition resetAt {T} (d : bool * Z * T * error) : T := d.1.2.
Definition err {T} (d : bool * Z * T * error) : error := d.2.

(* Consecutive calls of fixedWindow.Allow for one client, each with Allow's
   clock reading and the backend's readings for INCR and EXPIRE; the
   decisions in call order. *)
Fixpoint fixedWindow_AllowSeq {R} `{limiter.RedisClient R} (rl : limiter.RateLimiter R)
  (clientID : string) (calls : list (Time * Time * Time))
  : limiter.RateLimiter R * list (bool * Z * Duration * error) :=
  match calls with
  | [] => (rl, [])
  | (now, t_incr, t_exp) :: calls =>
      let '(rl1, d) := limiter.fixedWindow_Allow rl now t_incr t_exp clientID in
      let '(rl2, ds) := fixedWindow_AllowSeq rl1 clientID calls in
      (rl2, d :: ds)
  end.

(* FixedWindowLimiter: the quota a key has used in the window that is
   current at [now]; nothing when the key is unknown or its window elapsed. *)
Definition used (l : ratelimiter.FixedWindowLimiter) (now : Time) (key : string) : Z :=
  match ratelimiter.windows l !! key with
  | Some wd =>
      if ratelimiter.Window (ratelimiter.config l) <=? Sub now (ratelimiter.startTime wd)
      then 0 else ratelimiter.count wd
  | None => 0
  end.

(* FixedWindowLimiter: every window's count lies between 0 and the limit. *)
Definition within_quota (l : ratelimiter.FixedWindowLimiter) : Prop :=
  ∀ key wd, ratelimiter.windows l !! key = Some wd →
    0 <= ratelimiter.count wd <= ratelimiter.Limit (ratelimiter.config l).

(** * Properties *)

(** ** int64 arithmetic *)

Lemma wrap64_id (z : Z) : MinInt64 <= z <= MaxInt64 → wrap64 z = z.
Proof.
  unfold MinInt64, MaxInt64, wrap64. intros Hz.
  rewrite Z.mod_small; lia.
Qed.

Lemma wrap64_range (z : Z) : MinInt64 <= wrap64 z <= MaxInt64.
Proof.
  unfold MinInt64, MaxInt64, wrap64.
  pose proof (Z.mod_pos_bound (z + 2 ^ 63) (2 ^ 64) ltac:(lia)). lia.
Qed.

Lemma wrap64_add_l (a b : Z) : wrap64 (wrap64 a + b) = wrap64 (a + b).
Proof.
  unfold wrap64. f_equal.
  replace ((a + 2 ^ 63) mod 2 ^ 64 - 2 ^ 63 + b + 2 ^ 63)
    with ((a + 2 ^ 63) mod 2 ^ 64 + b) by lia.
  rewrite Zplus_mod_idemp_l. f_equal. lia.
Qed.

Lemma add64_succ (c : Z) : MinInt64 <= c < MaxInt64 → add64 c 1 = c + 1.
Proof. intros Hc. unfold add64. apply wrap64_id. lia. Qed.

Lemma wrap64_2_63 : wrap64 (2 ^ 63) = MinInt64.
Proof. reflexivity. Qed.

(** ** The in-memory store *)

Lemma Before_false (t u : Time) : Before t u = false ↔ u <= t.
Proof. unfold Before. apply Z.ltb_ge. Qed.

Lemma Before_true (t u : Time) : Before t u = true ↔ t < u.
Proof. unfold Before. apply Z.ltb_lt. Qed.

Lemma Increment_live (s : memory.MemoryStore) now key ttl e :
  s !! key = Some (Some e) → now <= memory.Expiry e →
  memory.Increment s now key ttl =
    (<[key := Some {| memory.Count := add64 (memory.Count e) 1;
                      memory.Expiry := memory.Expiry e |}]> s,
     (add64 (memory.Count e) 1, memory.Expiry e, None)).
Proof.
  intros Hk Hlive. unfold memory.Increment. rewrite Hk.
  apply Before_false in Hlive. by rewrite Hlive.
Qed.

Lemma Increment_fresh (s : memory.MemoryStore) now key ttl :
  (s !! key = None ∨ s !! key = Some None ∨
   ∃ e, s !! key = Some (Some e) ∧ memory.Expiry e < now) →
  memory.Increment s now key ttl =
    (<[key := Some {| memory.Count := 1; memory.Expiry := now + ttl |}]> s,
     (1, now + ttl, None)).
Proof.
  unfold memory.Increment, Add.
  intros [Hk | [Hk | (e & Hk & Hexp)]]; rewrite Hk; try done.
  apply Before_true in Hexp. by rewrite Hexp.
Qed.

(** C1, as amended.  [Increment] creates the entry with count 1 and expiry
    now + ttl when the key is absent, bound to nil, or bound to an entry whose
    expiry lies strictly before now.  Otherwise, an entry whose expiry is now
    or later (the instant now = expiry included) has its count incremented in
    int64 arithmetic, which is count + 1 below the largest int64, and keeps
    its expiry, which is returned.  No error is returned in either case. *)
Theorem Increment_creates_or_increments (s : memory.MemoryStore) now key ttl :
  ((s !! key = None ∨ s !! key = Some None ∨
    ∃ e, s !! key = Some (Some e) ∧ memory.Expiry e < now) →
   memory.Increment s now key ttl =
     (<[key := Some {| memory.Count := 1; memory.Expiry := now + ttl |}]> s,
      (1, now + ttl, None)))
  ∧ (∀ e, s !! key = Some (Some e) → now <= memory.Expiry e →
     memory.Increment s now key ttl =
       (<[key := Some {| memory.Count := add64 (memory.Count e) 1;
                         memory.Expiry := memory.Expiry e |}]> s,
        (add64 (memory.Count e) 1, memory.Expiry e, None))
     ∧ (MinInt64 <= memory.Count e < MaxInt64 →
        add64 (memory.Count e) 1 = memory.Count e + 1)).
Proof.
  split.
  - apply Increment_fresh.
  - intros e Hk Hlive. split.
    + by apply Increment_live.
    + apply add64_succ.
Qed.

Lemma Increment_creates_or_increments_witness :
  memory.Increment memory.NewMemoryStore 100 "k" 10 =
    (<["k" := Some {| memory.Count := 1; memory.Expiry := 110 |}]> ∅, (1, 110, None))
  ∧ memory.Increment {["k" := Some {| memory.Count := 1; memory.Expiry := 110 |}]} 105 "k" 10 =
    (<["k" := Some {| memory.Count := 2; memory.Expiry := 110 |}]>
       {["k" := Some {| memory.Count := 1; memory.Expiry := 110 |}]},
     (2, 110, None)).
Proof.
  split.
  - apply (proj1 (Increment_creates_or_increments memory.NewMemoryStore 100 "k" 10)).
    left. reflexivity.
  - apply (proj2 (Increment_creates_or_increments
             {["k" := Some {| memory.Count := 1; memory.Expiry := 110 |}]} 105 "k" 10)
             {| memory.Count := 1; memory.Expiry := 110 |}).
    + reflexivity.
    + simpl. lia.
Defined.

(** C1, counterexample.  A call at the very instant of the expiry
    (now = expiry = 100, ttl = 10) finds the entry still live: the count goes
    from 1 to 2 and the old expiry 100 is returned, where the claim asks for a
    new entry with count 1 and expiry 110. *)
Lemma Increment_at_expiry_instant :
  let s : memory.MemoryStore := {["k" := Some {| memory.Count := 1; memory.Expiry := 100 |}]} in
  s !! "k" = Some (Some {| memory.Count := 1; memory.Expiry := 100 |})
  ∧ 100 >= 100
  ∧ (memory.Increment s 100 "k" 10).2 = (2, 100, None)
  ∧ (memory.Increment s 100 "k" 10).2 ≠ (1, 100 + 10, None).
Proof.
  cbv zeta. split; [reflexivity|]. split; [lia|].
  split; [reflexivity|]. discriminate.
Qed.

(** C9.  Whatever the store, the key, the ttl and the clock reading,
    [MemoryStore.Increment] and [MemoryStore.Get] return a nil error. *)
Theorem MemoryStore_never_errors (s : memory.MemoryStore) now key ttl :
  (memory.Increment s now key ttl).2.2 = None
  ∧ (memory.Get s now key).2.2 = None.
Proof.
  unfold memory.Increment, memory.Get.
  destruct (s !! key) as [[e|]|]; simpl; try done.
  by destruct (Before (memory.Expiry e) now).
Qed.

(** *** Counts stay within the number of operations *)

Lemma counts_within_empty n : counts_within n memory.NewMemoryStore.
Proof. intros k slot Hk. unfold memory.NewMemoryStore in Hk. by rewrite lookup_empty in Hk. Qed.

Lemma counts_within_mono n m s : n <= m → counts_within n s → counts_within m s.
Proof.
  intros Hnm Hs k slot Hk. destruct (Hs k slot Hk) as (e & -> & He).
  exists e. split; [done | lia].
Qed.

Lemma counts_within_insert n s key e :
  1 <= memory.Count e <= n → counts_within n s →
  counts_within n (<[key := Some e]> s).
Proof.
  intros He Hs k slot. rewrite lookup_insert. case_decide as Hkey.
  - intros [= <-]. by exists e.
  - apply (Hs k slot).
Qed.

Lemma counts_within_sweep n now s :
  counts_within n s → counts_within n (memory.cleanupSweep now s).
Proof.
  intros Hs k slot Hk. unfold memory.cleanupSweep in Hk.
  apply map_lookup_filter_Some in Hk as [Hk _]. by apply (Hs k slot).
Qed.

Lemma counts_within_step n s o :
  0 <= n < MaxInt64 → counts_within n s →
  counts_within (n + 1) (memory.step s o).1
  ∧ ∀ c, (memory.step s o).2 = Some c → 1 <= c <= n + 1.
Proof.
  intros Hn Hs. destruct o as [now key ttl | now key | now]; simpl.
  - unfold memory.Increment.
    destruct (s !! key) as [[e|]|] eqn:Hk; simpl.
    + destruct (Hs _ _ Hk) as (e' & [= <-] & He).
      destruct (Before (memory.Expiry e) now); simpl.
      * split; [|intros c [= <-]; lia].
        apply counts_within_insert; [simpl; lia|].
        by apply (counts_within_mono n); [lia|].
      * rewrite add64_succ by (unfold MinInt64, MaxInt64 in *; lia).
        split; [|intros c [= <-]; lia].
        apply counts_within_insert; [simpl; lia|].
        by apply (counts_within_mono n); [lia|].
    + split; [|intros c [= <-]; lia].
      apply counts_within_insert; [simpl; lia|].
      by apply (counts_within_mono n); [lia|].
    + split; [|intros c [= <-]; lia].
      apply counts_within_insert; [simpl; lia|].
      by apply (counts_within_mono n); [lia|].
  - unfold memory.Get.
    destruct (s !! key) as [[e|]|]; simpl;
      [destruct (Before (memory.Expiry e) now); simpl| |];
      (split; [by apply (counts_within_mono n); [lia|] | done]).
  - split; [|done].
    apply counts_within_sweep. by apply (counts_within_mono n); [lia|].
Qed.

Lemma counts_within_run ops : ∀ n s,
  0 <= n → n + Z.of_nat (length ops) <= MaxInt64 → counts_within n s →
  counts_within (n + Z.of_nat (length ops)) (memory.run s ops).1
  ∧ Forall (λ c, 1 <= c <= n + Z.of_nat (length ops)) (memory.run s ops).2.
Proof.
  induction ops as [|o ops IH]; intros n s Hn Hlen Hs.
  - simpl. rewrite Z.add_0_r. by split.
  - cbn [memory.run length] in *. rewrite Nat2Z.inj_succ in *.
    destruct (counts_within_step n s o ltac:(lia) Hs) as [Hs1 Hr].
    destruct (memory.step s o) as [s1 r]. simpl in Hs1, Hr.
    destruct (IH (n + 1) s1 ltac:(lia) ltac:(lia) Hs1) as [Hs2 Hrs].
    destruct (memory.run s1 ops) as [s2 rs]. simpl in *.
    replace (n + Z.succ (Z.of_nat (length ops)))
      with (n + 1 + Z.of_nat (length ops)) by lia.
    split; [done|].
    destruct r as [c|]; [|done].
    constructor; [|done]. specialize (Hr c eq_refl). lia.
Qed.

(** C10, as amended.  After every sequence of fewer than 2^63 Increment, Get
    and cleanup-sweep operations on a fresh [MemoryStore], every slot of the
    map holds a non-nil entry with Count >= 1, and every count returned by an
    Increment of the sequence is >= 1. *)
Theorem fresh_store_counts_positive (ops : list memory.Op) :
  Z.of_nat (length ops) < 2 ^ 63 →
  (∀ k slot, (memory.run memory.NewMemoryStore ops).1 !! k = Some slot →
     ∃ e, slot = Some e ∧ 1 <= memory.Count e)
  ∧ Forall (λ c, 1 <= c) (memory.run memory.NewMemoryStore ops).2.
Proof.
  intros Hlen.
  destruct (counts_within_run ops 0 memory.NewMemoryStore) as [Hs Hrs];
    [lia | unfold MaxInt64; lia | apply counts_within_empty |].
  split.
  - intros k slot Hk. destruct (Hs k slot Hk) as (e & -> & He).
    exists e. split; [done | lia].
  - eapply Forall_impl; [exact Hrs|]. simpl. intros c Hc. lia.
Qed.

Lemma fresh_store_counts_positive_witness :
  (∀ k slot,
     (memory.run memory.NewMemoryStore
        [memory.OpIncrement 0 "a" 5; memory.OpIncrement 1 "a" 5;
         memory.OpGet 2 "a"; memory.OpSweep 30; memory.OpIncrement 31 "b" 5]).1
       !! k = Some slot →
     ∃ e, slot = Some e ∧ 1 <= memory.Count e)
  ∧ Forall (λ c, 1 <= c)
      (memory.run memory.NewMemoryStore
        [memory.OpIncrement 0 "a" 5; memory.OpIncrement 1 "a" 5;
         memory.OpGet 2 "a"; memory.OpSweep 30; memory.OpIncrement 31 "b" 5]).2.
Proof.
  apply (fresh_store_counts_positive
           [memory.OpIncrement 0 "a" 5; memory.OpIncrement 1 "a" 5;
            memory.OpGet 2 "a"; memory.OpSweep 30; memory.OpIncrement 31 "b" 5]).
  simpl. lia.
Defined.

Lemma run_cons_store s o ops :
  (memory.run s (o :: ops)).1 = (memory.run (memory.step s o).1 ops).1.
Proof.
  simpl. destruct (memory.step s o) as [s1 r]. simpl.
  by destruct (memory.run s1 ops).
Qed.

(* [n] further Increments of a live entry, all at one instant. *)
Lemma run_repeat_Increment now key ttl n : ∀ (s : memory.MemoryStore) e c,
  s !! key = Some (Some e) → now <= memory.Expiry e → memory.Count e = wrap64 c →
  (memory.run s (repeat (memory.OpIncrement now key ttl) n)).1 !! key =
    Some (Some {| memory.Count := wrap64 (c + Z.of_nat n);
                  memory.Expiry := memory.Expiry e |}).
Proof.
  induction n as [|n IH]; intros s e c Hk Hlive Hc.
  - simpl. rewrite Z.add_0_r, <- Hc, Hk. by destruct e.
  - cbn [repeat]. rewrite run_cons_store. cbn [memory.step].
    rewrite (Increment_live s now key ttl e Hk Hlive). cbn [fst].
    erewrite (IH _ _ (c + 1)); [| apply lookup_insert_eq | done |].
    + simpl. by replace (c + Z.of_nat (S n)) with (c + 1 + Z.of_nat n) by lia.
    + simpl. rewrite Hc. unfold add64. apply wrap64_add_l.
Qed.

(** C10, counterexample.  2^63 Increments of one key within one window
    (all at instant 0, ttl 1): the first creates the entry with count 1, the
    2^63 - 1 that follow wrap the int64 counter around to -2^63, so the entry
    in the map has Count < 1. *)
Lemma two_pow_63_increments_wrap :
  let ops := memory.OpIncrement 0 "k" 1
             :: repeat (memory.OpIncrement 0 "k" 1) (Z.to_nat (2 ^ 63 - 1)) in
  Z.of_nat (length ops) = 2 ^ 63
  ∧ (memory.run memory.NewMemoryStore ops).1 !! "k" =
      Some (Some {| memory.Count := - 2 ^ 63; memory.Expiry := 1 |})
  ∧ ¬ (1 <= - 2 ^ 63).
Proof.
  cbv zeta. split; [|split; [|lia]].
  - cbn [length]. rewrite repeat_length, Nat2Z.inj_succ, Z2Nat.id; lia.
  - rewrite run_cons_store.
    change (memory.step memory.NewMemoryStore (memory.OpIncrement 0 "k" 1)).1
      with (<["k" := Some {| memory.Count := 1; memory.Expiry := 1 |}]>
              (∅ : memory.MemoryStore)).
    rewrite (run_repeat_Increment 0 "k" 1 _ _
               {| memory.Count := 1; memory.Expiry := 1 |} 1);
      [| apply lookup_insert_eq | simpl; lia | reflexivity].
    rewrite Z2Nat.id by lia. reflexivity.
Qed.

(** ** The lazy-TTL engine (internal/limiter) *)

Section Limiter_Allow.

Import config internal_limiter.

Context {S : Type} `{!Store S}.

Lemma Allow_success (l : Limiter S) now now_s client s' counter expiry :
  Increment (store l) now_s (keyForClient client) (Window (effective l client))
    = (s', (counter, expiry, None)) →
  Allow l now now_s client
    = (NewLimiter s' (configs l), decision (effective l client) now counter expiry).
Proof.
  unfold Allow, effective, decision, default. intros HI.
  destruct (configs l !! client) as [cfg|]; simpl in *; rewrite HI;
    by destruct (Before expiry now).
Qed.

Lemma Allow_store_error (l : Limiter S) now now_s client s' counter expiry e :
  Increment (store l) now_s (keyForClient client) (Window (effective l client))
    = (s', (counter, expiry, Some e)) →
  Allow l now now_s client
    = (NewLimiter s' (configs l),
       (true, Limit (effective l client), zeroTime, Some e)).
Proof.
  unfold Allow, effective, default. intros HI.
  destruct (configs l !! client) as [cfg|]; simpl in *; by rewrite HI.
Qed.

End Limiter_Allow.

Lemma remaining_clamped (limit counter : Z) :
  0 <= limit <= MaxInt64 → 0 <= counter <= MaxInt64 →
  (if sub64 limit counter <? 0 then 0 else sub64 limit counter)
    = Z.max 0 (limit - counter).
Proof.
  intros Hl Hc. unfold sub64.
  rewrite wrap64_id by (unfold MinInt64, MaxInt64 in *; lia).
  destruct (Z.ltb_spec (limit - counter) 0); lia.
Qed.

Lemma windowStart_floor (t window : Z) :
  0 < window → limiter.windowStart t window = t / window * window.
Proof.
  intros Hw. unfold limiter.windowStart, Truncate.
  destruct (Z.leb_spec window 0); [lia|].
  rewrite (Z.div_mod t window) at 1 by lia. lia.
Qed.

Lemma resetIn_range (now window : Z) :
  0 < window <= MaxInt64 →
  0 < Sub (Add (limiter.windowStart now window) window) now <= window.
Proof.
  intros Hw. unfold limiter.windowStart, Truncate, Add, Sub.
  destruct (Z.leb_spec window 0); [lia|].
  pose proof (Z.mod_pos_bound now window ltac:(lia)).
  unfold MinInt64, MaxInt64 in *.
  destruct (Z.ltb_spec (now - now mod window + window - now) (- 2 ^ 63)); [lia|].
  destruct (Z.ltb_spec (2 ^ 63 - 1) (now - now mod window + window - now)); lia.
Qed.

Lemma fixedWindow_Allow_success {R} `{!limiter.RedisClient R}
  (rl : limiter.RateLimiter R) now t_incr t_exp clientID r1 count :
  let limit := limiter.GetLimit rl clientID in
  let key := limiter.generateKey clientID now (limiter.Window limit) in
  0 < limiter.Requests limit → 0 < limiter.Window limit →
  limiter.Incr (limiter.redis rl) t_incr key = (r1, (count, None)) →
  (count = 1 → (limiter.Expire r1 t_exp key (limiter.Window limit)).2.2 = None) →
  (limiter.fixedWindow_Allow rl now t_incr t_exp clientID).2 =
    (count <=? limiter.Requests limit,
     (if sub64 (limiter.Requests limit) count <? 0 then 0
      else sub64 (limiter.Requests limit) count),
     Sub (Add (limiter.windowStart now (limiter.Window limit)) (limiter.Window limit)) now,
     None).
Proof.
  intros limit key HR HW HI HE. unfold limiter.fixedWindow_Allow.
  fold limit. fold key.
  destruct (Z.leb_spec (limiter.Requests limit) 0); [lia|].
  destruct (Z.leb_spec (limiter.Window limit) 0); [lia|]. simpl.
  rewrite HI. destruct (Z.eqb_spec count 1) as [Hone|Hone]; [|done].
  specialize (HE Hone).
  destruct (limiter.Expire r1 t_exp key (limiter.Window limit)) as [r2 [b err]].
  simpl in HE. by subst err.
Qed.

(** C2, as amended.  A successful Allow that observed [counter] under an
    effective limit, both non-negative int64 values, returns
    allowed = (counter <= limit) and remaining = max(0, limit - counter),
    which lies in [0, limit].  [Limiter.Allow] returns the zero resetAt when
    the expiry lies strictly before its clock reading and the expiry itself
    otherwise, the instant expiry = now included.  [fixedWindow.Allow], for a
    valid limit, returns a resetIn in (0, window]: the end of the current
    window is always ahead. *)
Theorem Allow_decision_from_count :
  (∀ (S : Type) (St : internal_limiter.Store S) (l : internal_limiter.Limiter S)
     now now_s client s' counter expiry,
     internal_limiter.Increment (internal_limiter.store l) now_s
       (internal_limiter.keyForClient client) (config.Window (effective l client))
       = (s', (counter, expiry, None)) →
     0 <= config.Limit (effective l client) <= MaxInt64 →
     0 <= counter <= MaxInt64 →
     ∃ allowed remaining resetAt,
       (internal_limiter.Allow l now now_s client).2
         = (allowed, remaining, resetAt, None)
       ∧ (allowed = true ↔ counter <= config.Limit (effective l client))
       ∧ remaining = Z.max 0 (config.Limit (effective l client) - counter)
       ∧ 0 <= remaining <= config.Limit (effective l client)
       ∧ (expiry < now → resetAt = zeroTime)
       ∧ (now <= expiry → resetAt = expiry))
  ∧ (∀ (R : Type) (Rc : limiter.RedisClient R) (rl : limiter.RateLimiter R)
       now t_incr t_exp clientID r1 count,
       0 < limiter.Requests (limiter.GetLimit rl clientID) <= MaxInt64 →
       0 < limiter.Window (limiter.GetLimit rl clientID) <= MaxInt64 →
       limiter.Incr (limiter.redis rl) t_incr
         (limiter.generateKey clientID now (limiter.Window (limiter.GetLimit rl clientID)))
         = (r1, (count, None)) →
       (count = 1 →
        (limiter.Expire r1 t_exp
           (limiter.generateKey clientID now (limiter.Window (limiter.GetLimit rl clientID)))
           (limiter.Window (limiter.GetLimit rl clientID))).2.2 = None) →
       0 <= count <= MaxInt64 →
       ∃ allowed remaining resetIn,
         (limiter.fixedWindow_Allow rl now t_incr t_exp clientID).2
           = (allowed, remaining, resetIn, None)
         ∧ (allowed = true ↔ count <= limiter.Requests (limiter.GetLimit rl clientID))
         ∧ remaining = Z.max 0 (limiter.Requests (limiter.GetLimit rl clientID) - count)
         ∧ 0 <= remaining <= limiter.Requests (limiter.GetLimit rl clientID)
         ∧ 0 < resetIn <= limiter.Window (limiter.GetLimit rl clientID)).
Proof.
  split.
  - intros S St l now now_s client s' counter expiry HI Hl Hc.
    rewrite (Allow_success l now now_s client s' counter expiry HI).
    unfold decision. simpl. eexists _, _, _. split; [reflexivity|].
    rewrite remaining_clamped by done.
    split; [apply Z.leb_le|]. split; [done|]. split; [lia|].
    split; intros Hexp.
    + apply Before_true in Hexp. by rewrite Hexp.
    + apply Before_false in Hexp. by rewrite Hexp.
  - intros R Rc rl now t_incr t_exp clientID r1 count HR HW HI HE Hc.
    rewrite (fixedWindow_Allow_success rl now t_incr t_exp clientID r1 count)
      by (done || lia).
    eexists _, _, _. split; [reflexivity|].
    rewrite remaining_clamped by lia.
    split; [apply Z.leb_le|]. split; [done|]. split; [lia|].
    by apply resetIn_range.
Qed.

Lemma Allow_decision_from_count_witness :
  (∃ allowed remaining resetAt,
     (internal_limiter.Allow
        (internal_limiter.NewLimiter memory.NewMemoryStore config.Clients)
        5 6 "client-1").2 = (allowed, remaining, resetAt, None)
     ∧ (allowed = true ↔ 1 <= 5)
     ∧ remaining = Z.max 0 (5 - 1)
     ∧ 0 <= remaining <= 5
     ∧ (6 + 60 * Second < 5 → resetAt = zeroTime)
     ∧ (5 <= 6 + 60 * Second → resetAt = 6 + 60 * Second))
  ∧ (∃ allowed remaining resetIn,
       (limiter.fixedWindow_Allow
          (limiter.NewRateLimiter limiter.newMockRedis
             {| limiter.Requests := 2; limiter.Window := Second |})
          5 6 7 "c1").2 = (allowed, remaining, resetIn, None)
       ∧ (allowed = true ↔ 1 <= 2)
       ∧ remaining = Z.max 0 (2 - 1)
       ∧ 0 <= remaining <= 2
       ∧ 0 < resetIn <= Second).
Proof.
  split.
  - apply (proj1 Allow_decision_from_count memory.MemoryStore _
             (internal_limiter.NewLimiter memory.NewMemoryStore config.Clients)
             5 6 "client-1"
             (<["rate:client-1" := Some {| memory.Count := 1;
                                           memory.Expiry := 6 + 60 * Second |}]> ∅)
             1 (6 + 60 * Second)).
    + reflexivity.
    + vm_compute. split; discriminate.
    + vm_compute. split; discriminate.
  - apply (proj2 Allow_decision_from_count limiter.mockRedis _
             (limiter.NewRateLimiter limiter.newMockRedis
                {| limiter.Requests := 2; limiter.Window := Second |})
             5 6 7 "c1"
             (<["reatelimit:c1:-62135596800" :=
                  {| limiter.count := 1; limiter.ttl := zeroTime |}]> ∅)
             1).
    + vm_compute. split; [reflexivity | discriminate].
    + vm_compute. split; [reflexivity | discriminate].
    + reflexivity.
    + intros _. reflexivity.
    + vm_compute. split; discriminate.
Defined.

(** C2, counterexample.  client-1 (limit 5, window 60s) calls at instant 0
    and again at the very instant the entry expires.  The expiry is then not
    in the future at read time, yet the second decision carries it as resetAt
    instead of the zero time. *)
Lemma Allow_resetAt_at_expiry_instant :
  let l0 := internal_limiter.NewLimiter memory.NewMemoryStore config.Clients in
  let l1 := (internal_limiter.Allow l0 0 0 "client-1").1 in
  let now := 60 * Second in
  (internal_limiter.Allow l1 now now "client-1").2 = (true, 3, now, None)
  ∧ ¬ (now < now)
  ∧ now ≠ zeroTime.
Proof.
  cbv zeta. split; [reflexivity|]. split; [lia | discriminate].
Qed.

(** *** Calls within one window *)

Lemma Increment_window (s : memory.MemoryStore) now_s key ttl c E :
  window_at s now_s key ttl = (c, E) →
  memory.Increment s now_s key ttl =
    (<[key := Some {| memory.Count := add64 c 1; memory.Expiry := E |}]> s,
     (add64 c 1, E, None)).
Proof.
  unfold window_at, memory.Increment, Add.
  destruct (s !! key) as [[e|]|]; [destruct (Before (memory.Expiry e) now_s)| |];
    by intros [= <- <-].
Qed.

Lemma window_at_insert_live (s : memory.MemoryStore) now_s key ttl e :
  now_s <= memory.Expiry e →
  window_at (<[key := Some e]> s) now_s key ttl = (memory.Count e, memory.Expiry e).
Proof.
  intros Hlive. unfold window_at. rewrite lookup_insert_eq.
  apply Before_false in Hlive. by rewrite Hlive.
Qed.

Lemma AllowSeq_cons (l : internal_limiter.Limiter memory.MemoryStore) client now now_s rest :
  (internal_limiter.AllowSeq l client ((now, now_s) :: rest)).2 =
    (internal_limiter.Allow l now now_s client).2
    :: (internal_limiter.AllowSeq (internal_limiter.Allow l now now_s client).1 client rest).2.
Proof.
  simpl. destruct (internal_limiter.Allow l now now_s client) as [l1 d]. simpl.
  by destruct (internal_limiter.AllowSeq l1 client rest).
Qed.

Lemma AllowSeq_length (l : internal_limiter.Limiter memory.MemoryStore) client calls :
  length (internal_limiter.AllowSeq l client calls).2 = length calls.
Proof.
  revert l. induction calls as [|[now now_s] calls IH]; intros l; [done|].
  rewrite AllowSeq_cons. simpl. by rewrite IH.
Qed.

Lemma Allow_memory (l : internal_limiter.Limiter memory.MemoryStore) now now_s client c E :
  window_at (internal_limiter.store l) now_s (internal_limiter.keyForClient client)
    (config.Window (effective l client)) = (c, E) →
  internal_limiter.Allow l now now_s client =
    (internal_limiter.NewLimiter
       (<[internal_limiter.keyForClient client :=
            Some {| memory.Count := add64 c 1; memory.Expiry := E |}]>
          (internal_limiter.store l))
       (internal_limiter.configs l),
     decision (effective l client) now (add64 c 1) E).
Proof.
  intros Hw. apply Allow_success.
  exact (Increment_window _ _ _ _ _ _ Hw).
Qed.

(* The i-th decision of a run of calls that stay in the window the first
   call lands in; the count is the int64 the store holds, wrap-around
   included. *)
Lemma AllowSeq_lookup client rest :
  ∀ (l : internal_limiter.Limiter memory.MemoryStore) now now_s c E,
  window_at (internal_limiter.store l) now_s (internal_limiter.keyForClient client)
    (config.Window (effective l client)) = (c, E) →
  Forall (λ call : Time * Time, call.2 <= E) rest →
  ∀ i call, ((now, now_s) :: rest) !! i = Some call →
    (internal_limiter.AllowSeq l client ((now, now_s) :: rest)).2 !! i =
      Some (decision (effective l client) call.1 (wrap64 (c + Z.of_nat i + 1)) E).
Proof.
  induction rest as [|[now' now_s'] rest IH]; intros l now now_s c E Hw Hrest i call Hi;
    rewrite AllowSeq_cons;
    rewrite (Allow_memory l now now_s client c E Hw);
    (destruct i as [|i]; simpl in Hi;
     [injection Hi as <-; simpl; by rewrite Z.add_0_r|]).
  - done.
  - apply Forall_cons in Hrest as [Hnow' Hrest]. simpl in Hnow'.
    cbn [fst snd lookup list_lookup].
    erewrite (IH _ now' now_s' (add64 c 1) E); [| |done|exact Hi].
    + unfold effective. simpl.
      replace (wrap64 (add64 c 1 + Z.of_nat i + 1))
        with (wrap64 (c + Z.of_nat (S i) + 1)); [done|].
      unfold add64. rewrite <- (Z.add_assoc (wrap64 _)), wrap64_add_l.
      f_equal. lia.
    + unfold effective. simpl. by apply (window_at_insert_live _ _ _ _
        {| memory.Count := add64 c 1; memory.Expiry := E |}).
Qed.

Lemma decisions_in_window (l : internal_limiter.Limiter memory.MemoryStore)
  client now now_s rest c0 E i d :
  window_at (internal_limiter.store l) now_s (internal_limiter.keyForClient client)
    (config.Window (effective l client)) = (c0, E) →
  Forall (λ call : Time * Time, call.2 <= E) rest →
  0 <= c0 → c0 + Z.of_nat (S (length rest)) <= MaxInt64 →
  (internal_limiter.AllowSeq l client ((now, now_s) :: rest)).2 !! i = Some d →
  ∃ call, d = decision (effective l client) call (c0 + Z.of_nat i + 1) E.
Proof.
  intros Hw Hrest Hc0 Hlen Hd.
  assert (i < S (length rest))%nat as Hi.
  { apply lookup_lt_Some in Hd. by rewrite AllowSeq_length in Hd. }
  destruct (lookup_lt_is_Some_2 ((now, now_s) :: rest) i Hi) as [call Hcall].
  rewrite (AllowSeq_lookup client rest l now now_s c0 E Hw Hrest i call Hcall) in Hd.
  injection Hd as <-. exists call.1.
  rewrite wrap64_id; [done|]. unfold MinInt64, MaxInt64 in *. lia.
Qed.

(** C3, as amended.  Take calls of [Limiter.Allow] for one client on the
    in-memory store that all land in the window of the first call (count so
    far [c0], expiry [E]), a limit that is a non-negative int64, and a
    cumulative count that stays within int64.  Every call succeeds; the n-th
    call returns remaining = max(0, limit - (c0 + n)) and is allowed exactly
    when the cumulative count c0 + n does not exceed the limit.  So remaining
    is never negative and never increases, and once a call is denied every
    later call is denied. *)
Theorem Allow_within_one_window (l : internal_limiter.Limiter memory.MemoryStore)
  client now now_s rest c0 E :
  window_at (internal_limiter.store l) now_s (internal_limiter.keyForClient client)
    (config.Window (effective l client)) = (c0, E) →
  Forall (λ call : Time * Time, call.2 <= E) rest →
  0 <= config.Limit (effective l client) <= MaxInt64 →
  0 <= c0 → c0 + Z.of_nat (S (length rest)) <= MaxInt64 →
  length (internal_limiter.AllowSeq l client ((now, now_s) :: rest)).2 = S (length rest)
  ∧ (∀ i d,
       (internal_limiter.AllowSeq l client ((now, now_s) :: rest)).2 !! i = Some d →
       err d = None
       ∧ remaining d = Z.max 0 (config.Limit (effective l client) - (c0 + Z.of_nat i + 1))
       ∧ (allowed d = true ↔ c0 + Z.of_nat i + 1 <= config.Limit (effective l client))
       ∧ (allowed d = false ↔ config.Limit (effective l client) < c0 + Z.of_nat i + 1))
  ∧ (∀ i j di dj, (i <= j)%nat →
       (internal_limiter.AllowSeq l client ((now, now_s) :: rest)).2 !! i = Some di →
       (internal_limiter.AllowSeq l client ((now, now_s) :: rest)).2 !! j = Some dj →
       0 <= remaining dj <= remaining di
       ∧ (allowed dj = true → allowed di = true)).
Proof.
  intros Hw Hrest Hl Hc0 Hlen.
  assert (∀ i d,
    (internal_limiter.AllowSeq l client ((now, now_s) :: rest)).2 !! i = Some d →
    (i < S (length rest))%nat
    ∧ err d = None
    ∧ remaining d = Z.max 0 (config.Limit (effective l client) - (c0 + Z.of_nat i + 1))
    ∧ (allowed d = true ↔ c0 + Z.of_nat i + 1 <= config.Limit (effective l client)))
    as Hd.
  { intros i d Hi. split.
    { apply lookup_lt_Some in Hi. by rewrite AllowSeq_length in Hi. }
    destruct (decisions_in_window l client now now_s rest c0 E i d) as [call ->];
      try done.
    assert (i < S (length rest))%nat.
    { apply lookup_lt_Some in Hi. by rewrite AllowSeq_length in Hi. }
    unfold decision, err, remaining, allowed. simpl.
    rewrite remaining_clamped by lia.
    split; [done|]. split; [done|]. apply Z.leb_le. }
  split; [apply AllowSeq_length|]. split.
  - intros i d Hi. destruct (Hd i d Hi) as (_ & He & Hr & Ha).
    split; [done|]. split; [done|]. split; [done|].
    rewrite <- not_true_iff_false, Ha. lia.
  - intros i j di dj Hij Hi Hj.
    destruct (Hd i di Hi) as (_ & _ & Hri & Hai).
    destruct (Hd j dj Hj) as (_ & _ & Hrj & Haj).
    rewrite Hri, Hrj, Hai, Haj. lia.
Qed.

Lemma Allow_within_one_window_witness :
  let l := internal_limiter.NewLimiter memory.NewMemoryStore config.Clients in
  let ds := (internal_limiter.AllowSeq l "client-2" [(0, 0); (1, 1); (2, 2)]).2 in
  length ds = 3%nat
  ∧ (∀ i d, ds !! i = Some d →
       err d = None
       ∧ remaining d = Z.max 0 (2 - (0 + Z.of_nat i + 1))
       ∧ (allowed d = true ↔ 0 + Z.of_nat i + 1 <= 2)
       ∧ (allowed d = false ↔ 2 < 0 + Z.of_nat i + 1))
  ∧ (∀ i j di dj, (i <= j)%nat → ds !! i = Some di → ds !! j = Some dj →
       0 <= remaining dj <= remaining di
       ∧ (allowed dj = true → allowed di = true)).
Proof.
  apply (Allow_within_one_window
           (internal_limiter.NewLimiter memory.NewMemoryStore config.Clients)
           "client-2" 0 0 [(1, 1); (2, 2)] 0 (60 * Second)).
  - reflexivity.
  - repeat constructor; simpl; unfold Second; lia.
  - vm_compute. split; discriminate.
  - lia.
  - vm_compute. discriminate.
Defined.

Lemma lookup_cons_replicate {A} (x : A) n i :
  (i <= n)%nat → (x :: replicate n x) !! i = Some x.
Proof.
  intros Hi. destruct i as [|i]; [done|].
  simpl. apply lookup_replicate_2. lia.
Qed.

(** C3, counterexample.  client-2 (limit 2, window 60s) makes 2^63 calls
    at instant 0, all within the window opened by the first.  The third call
    is denied, its cumulative count 3 exceeding the limit; the last call,
    whose cumulative count is 2^63, is allowed again, because the int64
    counter of the entry has wrapped around to -2^63. *)
Lemma Allow_after_counter_wraps :
  let l := internal_limiter.NewLimiter memory.NewMemoryStore config.Clients in
  let rest := replicate (Z.to_nat (2 ^ 63 - 1)) (0, 0) in
  let ds := (internal_limiter.AllowSeq l "client-2" ((0, 0) :: rest)).2 in
  window_at memory.NewMemoryStore 0 "rate:client-2" (60 * Second) = (0, 60 * Second)
  ∧ Forall (λ call : Time * Time, call.2 <= 60 * Second) rest
  ∧ allowed <$> ds !! 2%nat = Some false
  ∧ allowed <$> ds !! Z.to_nat (2 ^ 63 - 1) = Some true.
Proof.
  cbv zeta. split; [reflexivity|]. split.
  { apply Forall_replicate. simpl. unfold Second. lia. }
  assert (∀ i, (i <= Z.to_nat (2 ^ 63 - 1))%nat →
    (internal_limiter.AllowSeq
       (internal_limiter.NewLimiter memory.NewMemoryStore config.Clients)
       "client-2" ((0, 0) :: replicate (Z.to_nat (2 ^ 63 - 1)) (0, 0))).2 !! i =
    Some (decision {| config.Limit := 2; config.Window := 60 * Second |} 0
            (wrap64 (0 + Z.of_nat i + 1)) (60 * Second))) as Hds.
  { intros i Hi.
    rewrite (AllowSeq_lookup "client-2" _
               (internal_limiter.NewLimiter memory.NewMemoryStore config.Clients)
               0 0 0 (60 * Second) eq_refl) with (i := i) (call := (0, 0)).
    - reflexivity.
    - apply Forall_replicate. simpl. unfold Second. lia.
    - by apply lookup_cons_replicate. }
  split.
  - rewrite Hds by lia. reflexivity.
  - rewrite Hds by lia. rewrite Z2Nat.id by lia. reflexivity.
Qed.

(** ** Malformed configurations *)

(* The guard of fixedWindow.Allow: a limit with requests <= 0 or window <= 0
   is refused with an error before the backend is touched. *)
Lemma fixedWindow_Allow_invalid_config {R} `{!limiter.RedisClient R}
  (rl : limiter.RateLimiter R) now t_incr t_exp clientID :
  limiter.Requests (limiter.GetLimit rl clientID) <= 0
  ∨ limiter.Window (limiter.GetLimit rl clientID) <= 0 →
  limiter.fixedWindow_Allow rl now t_incr t_exp clientID =
    (rl, (false, 0, 0, Some ("invalid limit configuration for client " +:+ clientID))).
Proof.
  intros Hbad. unfold limiter.fixedWindow_Allow.
  destruct (Z.leb_spec (limiter.Requests (limiter.GetLimit rl clientID)) 0);
    [done|].
  destruct (Z.leb_spec (limiter.Window (limiter.GetLimit rl clientID)) 0);
    [done | lia].
Qed.

(** C5, the code at the failing inputs.  [Limiter.Allow] has no such guard.
    With limit 0 (window 1s) the first request of a client is denied with a
    nil error.  With limit 5 and window 0 every request at a later instant
    opens a new window: three requests are all admitted with count 1 and a
    nil error. *)
Theorem Limiter_Allow_malformed_config_silent :
  (internal_limiter.Allow
     (internal_limiter.NewLimiter memory.NewMemoryStore
        {["c1" := {| config.Limit := 0; config.Window := Second |}]})
     0 0 "c1").2 = (false, 0, Second, None)
  ∧ (internal_limiter.AllowSeq
       (internal_limiter.NewLimiter memory.NewMemoryStore
          {["c1" := {| config.Limit := 5; config.Window := 0 |}]})
       "c1" [(1, 1); (2, 2); (3, 3)]).2
    = [(true, 4, 1, None); (true, 4, 2, None); (true, 4, 3, None)].
Proof. split; reflexivity. Qed.

(** ** Storage errors *)

(** C6, as amended.  Each engine applies one fixed policy to every storage
    error and hands the error to its caller.  [Limiter.Allow] fails open: it
    returns allowed = true, remaining = limit, the zero resetAt and the
    store's error.  [fixedWindow.Allow], for a valid limit, fails closed: it
    returns allowed = false, remaining = 0, resetIn = 0 and the backend's
    error, whether INCR failed or the EXPIRE after a first INCR did. *)
Theorem storage_error_policy_per_engine :
  (∀ (S : Type) (St : internal_limiter.Store S) (l : internal_limiter.Limiter S)
     now now_s client s' counter expiry e,
     internal_limiter.Increment (internal_limiter.store l) now_s
       (internal_limiter.keyForClient client) (config.Window (effective l client))
       = (s', (counter, expiry, Some e)) →
     (internal_limiter.Allow l now now_s client).2
       = (true, config.Limit (effective l client), zeroTime, Some e))
  ∧ (∀ (R : Type) (Rc : limiter.RedisClient R) (rl : limiter.RateLimiter R)
       now t_incr t_exp clientID r1 count e,
       0 < limiter.Requests (limiter.GetLimit rl clientID) →
       0 < limiter.Window (limiter.GetLimit rl clientID) →
       limiter.Incr (limiter.redis rl) t_incr
         (limiter.generateKey clientID now (limiter.Window (limiter.GetLimit rl clientID)))
         = (r1, (count, Some e)) →
       (limiter.fixedWindow_Allow rl now t_incr t_exp clientID).2
         = (false, 0, 0, Some e))
  ∧ (∀ (R : Type) (Rc : limiter.RedisClient R) (rl : limiter.RateLimiter R)
       now t_incr t_exp clientID r1 r2 b e,
       0 < limiter.Requests (limiter.GetLimit rl clientID) →
       0 < limiter.Window (limiter.GetLimit rl clientID) →
       limiter.Incr (limiter.redis rl) t_incr
         (limiter.generateKey clientID now (limiter.Window (limiter.GetLimit rl clientID)))
         = (r1, (1, None)) →
       limiter.Expire r1 t_exp
         (limiter.generateKey clientID now (limiter.Window (limiter.GetLimit rl clientID)))
         (limiter.Window (limiter.GetLimit rl clientID))
         = (r2, (b, Some e)) →
       (limiter.fixedWindow_Allow rl now t_incr t_exp clientID).2
         = (false, 0, 0, Some e)).
Proof.
  split; [|split].
  - intros S St l now now_s client s' counter expiry e HI.
    by rewrite (Allow_store_error l now now_s client s' counter expiry e HI).
  - intros R Rc rl now t_incr t_exp clientID r1 count e HR HW HI.
    unfold limiter.fixedWindow_Allow.
    destruct (Z.leb_spec (limiter.Requests (limiter.GetLimit rl clientID)) 0); [lia|].
    destruct (Z.leb_spec (limiter.Window (limiter.GetLimit rl clientID)) 0); [lia|].
    simpl. by rewrite HI.
  - intros R Rc rl now t_incr t_exp clientID r1 r2 b e HR HW HI HE.
    unfold limiter.fixedWindow_Allow.
    destruct (Z.leb_spec (limiter.Requests (limiter.GetLimit rl clientID)) 0); [lia|].
    destruct (Z.leb_spec (limiter.Window (limiter.GetLimit rl clientID)) 0); [lia|].
    simpl. rewrite HI. simpl. by rewrite HE.
Qed.

Lemma storage_error_policy_per_engine_witness :
  (internal_limiter.Allow
     (internal_limiter.NewLimiter internal_limiter.MockStoreError config.Clients)
     0 0 "client-1").2 = (true, 5, zeroTime, Some "mock increment error"%string)
  ∧ (limiter.fixedWindow_Allow
       (limiter.NewRateLimiter
          (limiter.Flaky limiter.newMockRedis [Some "connection refused"%string])
          {| limiter.Requests := 2; limiter.Window := Second |})
       0 0 0 "c1").2 = (false, 0, 0, Some "connection refused"%string)
  ∧ (limiter.fixedWindow_Allow
       (limiter.NewRateLimiter
          (limiter.Flaky limiter.newMockRedis [None; Some "connection reset"%string])
          {| limiter.Requests := 2; limiter.Window := Second |})
       0 0 0 "c1").2 = (false, 0, 0, Some "connection reset"%string).
Proof.
  split; [|split].
  - apply (proj1 storage_error_policy_per_engine _ _
             (internal_limiter.NewLimiter internal_limiter.MockStoreError config.Clients)
             0 0 "client-1" internal_limiter.MockStoreError 0 zeroTime).
    reflexivity.
  - apply (proj1 (proj2 storage_error_policy_per_engine) _ _
             (limiter.NewRateLimiter
                (limiter.Flaky limiter.newMockRedis [Some "connection refused"%string])
                {| limiter.Requests := 2; limiter.Window := Second |})
             0 0 0 "c1" (limiter.Flaky limiter.newMockRedis []) 0).
    + reflexivity.
    + reflexivity.
    + reflexivity.
  - apply (proj2 (proj2 storage_error_policy_per_engine) _ _
             (limiter.NewRateLimiter
                (limiter.Flaky limiter.newMockRedis [None; Some "connection reset"%string])
                {| limiter.Requests := 2; limiter.Window := Second |})
             0 0 0 "c1"
             (limiter.Flaky
                (<["reatelimit:c1:-62135596800" :=
                     {| limiter.count := 1; limiter.ttl := zeroTime |}]> ∅)
                [Some "connection reset"%string])
             (limiter.Flaky
                (<["reatelimit:c1:-62135596800" :=
                     {| limiter.count := 1; limiter.ttl := zeroTime |}]> ∅)
                [])
             false).
    + reflexivity.
    + reflexivity.
    + reflexivity.
    + reflexivity.
Defined.

(** C6, counterexample.  On a storage error for the same kind of request the
    two engines decide differently: [Limiter.Allow] admits (fail-open),
    [fixedWindow.Allow] denies (fail-closed); both return the error. *)
Lemma storage_error_policy_not_uniform :
  let d1 := (internal_limiter.Allow
               (internal_limiter.NewLimiter internal_limiter.MockStoreError config.Clients)
               0 0 "client-1").2 in
  let d2 := (limiter.fixedWindow_Allow
               (limiter.NewRateLimiter
                  (limiter.Flaky limiter.newMockRedis [Some "connection refused"%string])
                  {| limiter.Requests := 5; limiter.Window := 60 * Second |})
               0 0 0 "client-1").2 in
  err d1 ≠ None ∧ err d2 ≠ None
  ∧ allowed d1 = true ∧ allowed d2 = false
  ∧ allowed d1 ≠ allowed d2.
Proof. cbv zeta. repeat split; done. Qed.

(** *** What a failed call leaves in the backend *)

(** C4, as amended.  Over any backend.  [fixedWindow.Allow] returns an
    error in exactly three cases, and in each of them allowed = false.  With
    a malformed limit it issues no command and the backend is untouched.
    With a valid limit, when INCR returns an error it returns that error and
    issues no further command: the backend is whatever the failed INCR left.
    When the first INCR of a key succeeds and the EXPIRE that follows it
    fails, it returns the EXPIRE error and the backend is the state after
    the successful INCR and the failed EXPIRE.  [RedisStore.Increment]
    returns an error exactly when a command of the INCR/TTL pipeline or the
    EXPIRE that follows a TTL of -1 or -2 returns one: a pipeline error comes
    with count 0 and the state after both pipeline commands, an EXPIRE error
    with the counter INCR returned and the state after the failed EXPIRE.  In
    no case is a compensating command issued: an increment that was applied
    stays applied. *)
Theorem failed_call_no_rollback :
  (∀ (R : Type) (Rc : limiter.RedisClient R) (rl : limiter.RateLimiter R)
     now t_incr t_exp clientID,
     (limiter.Requests (limiter.GetLimit rl clientID) ≤ 0
      ∨ limiter.Window (limiter.GetLimit rl clientID) ≤ 0 →
      limiter.fixedWindow_Allow rl now t_incr t_exp clientID
        = (rl, (false, 0, 0,
                Some ("invalid limit configuration for client " +:+ clientID))))
     ∧ (∀ r1 count e,
          0 < limiter.Requests (limiter.GetLimit rl clientID) →
          0 < limiter.Window (limiter.GetLimit rl clientID) →
          limiter.Incr (limiter.redis rl) t_incr
            (limiter.generateKey clientID now (limiter.Window (limiter.GetLimit rl clientID)))
            = (r1, (count, Some e)) →
          limiter.fixedWindow_Allow rl now t_incr t_exp clientID
            = (limiter.with_redis rl r1, (false, 0, 0, Some e)))
     ∧ (∀ r1 r2 b e,
          0 < limiter.Requests (limiter.GetLimit rl clientID) →
          0 < limiter.Window (limiter.GetLimit rl clientID) →
          limiter.Incr (limiter.redis rl) t_incr
            (limiter.generateKey clientID now (limiter.Window (limiter.GetLimit rl clientID)))
            = (r1, (1, None)) →
          limiter.Expire r1 t_exp
            (limiter.generateKey clientID now (limiter.Window (limiter.GetLimit rl clientID)))
            (limiter.Window (limiter.GetLimit rl clientID))
            = (r2, (b, Some e)) →
          limiter.fixedWindow_Allow rl now t_incr t_exp clientID
            = (limiter.with_redis rl r2, (false, 0, 0, Some e)))
     ∧ (err (limiter.fixedWindow_Allow rl now t_incr t_exp clientID).2 ≠ None →
        (limiter.Requests (limiter.GetLimit rl clientID) ≤ 0
         ∨ limiter.Window (limiter.GetLimit rl clientID) ≤ 0)
        ∨ (∃ r1 count e,
             limiter.Incr (limiter.redis rl) t_incr
               (limiter.generateKey clientID now (limiter.Window (limiter.GetLimit rl clientID)))
               = (r1, (count, Some e)))
        ∨ (∃ r1 r2 b e,
             limiter.Incr (limiter.redis rl) t_incr
               (limiter.generateKey clientID now (limiter.Window (limiter.GetLimit rl clientID)))
               = (r1, (1, None))
             ∧ limiter.Expire r1 t_exp
                 (limiter.generateKey clientID now (limiter.Window (limiter.GetLimit rl clientID)))
                 (limiter.Window (limiter.GetLimit rl clientID))
               = (r2, (b, Some e)))))
  ∧ (∀ (R : Type) (Rc : limiter.RedisClient R) (r : redis.RedisStore R)
       now t_pipe t_exp key ttl c1 counter e1 c2 currentTTL e2,
       limiter.Incr (redis.client r) t_pipe key = (c1, (counter, e1)) →
       limiter.TTL c1 t_pipe key = (c2, (currentTTL, e2)) →
       (∀ e, e1 = Some e →
          redis.Increment r now t_pipe t_exp key ttl
            = (redis.NewRedisStore c2,
               (0, zeroTime, Some ("redis pipeline error: " +:+ e))))
       ∧ (∀ e, e1 = None → e2 = Some e →
            redis.Increment r now t_pipe t_exp key ttl
              = (redis.NewRedisStore c2,
                 (0, zeroTime, Some ("redis pipeline error: " +:+ e))))
       ∧ (∀ c3 b e, e1 = None → e2 = None →
            currentTTL = -1 ∨ currentTTL = -2 →
            limiter.Expire c2 t_exp key ttl = (c3, (b, Some e)) →
            redis.Increment r now t_pipe t_exp key ttl
              = (redis.NewRedisStore c3,
                 (counter, zeroTime, Some ("redis expire error: " +:+ e))))
       ∧ ((redis.Increment r now t_pipe t_exp key ttl).2.2 ≠ None →
          e1 ≠ None ∨ e2 ≠ None
          ∨ ((currentTTL = -1 ∨ currentTTL = -2)
             ∧ (limiter.Expire c2 t_exp key ttl).2.2 ≠ None))).
Proof.
  split.
  - intros R Rc rl now t_incr t_exp clientID.
    unfold limiter.fixedWindow_Allow.
    destruct (Z.leb_spec (limiter.Requests (limiter.GetLimit rl clientID)) 0) as [HR|HR];
      [|destruct (Z.leb_spec (limiter.Window (limiter.GetLimit rl clientID)) 0) as [HW|HW]];
      cbn [orb].
    + split; [done|]. split; [intros; lia|]. split; [intros; lia|].
      intros _. left. by left.
    + split; [done|]. split; [intros; lia|]. split; [intros; lia|].
      intros _. left. by right.
    + split; [intros [?|?]; lia|]. split; [|split].
      * intros r1 count e _ _ HI. by rewrite HI.
      * intros r1 r2 b e _ _ HI HE. rewrite HI. cbn [Z.eqb Pos.eqb]. by rewrite HE.
      * destruct (limiter.Incr _ _ _) as [r1 [count [e|]]] eqn:HI.
        -- intros _. right. left. by exists r1, count, e.
        -- destruct (Z.eqb_spec count 1) as [->|Hne]; [|by intros []].
           destruct (limiter.Expire _ _ _ _) as [r2 [b [e|]]] eqn:HE; [|by intros []].
           intros _. right. right. by exists r1, r2, b, e.
  - intros R Rc r now t_pipe t_exp key ttl c1 counter e1 c2 currentTTL e2 HI HT.
    unfold redis.Increment. rewrite HI, HT.
    split; [|split; [|split]].
    + by intros e ->.
    + by intros e -> ->.
    + intros c3 b e -> -> Httl HE.
      assert (((currentTTL =? -1) || (currentTTL =? -2)) = true) as ->.
      { destruct Httl as [-> | ->]; reflexivity. }
      by rewrite HE.
    + destruct e1 as [e|]; [intros _; by left|].
      destruct e2 as [e|]; [intros _; right; by left|].
      destruct (Z.eqb_spec currentTTL (-1)) as [Hm1|Hm1];
        [|destruct (Z.eqb_spec currentTTL (-2)) as [Hm2|Hm2]]; cbn [orb].
      * destruct (limiter.Expire c2 t_exp key ttl) as [c3 [b [e|]]]; [|by intros []].
        intros _. right. right. split; [by left | done].
      * destruct (limiter.Expire c2 t_exp key ttl) as [c3 [b [e|]]]; [|by intros []].
        intros _. right. right. split; [by right | done].
      * by intros [].
Qed.

Lemma failed_call_no_rollback_witness :
  limiter.fixedWindow_Allow
    (limiter.NewRateLimiter
       (limiter.Flaky limiter.newMockRedis [Some "connection reset"%string])
       {| limiter.Requests := 2; limiter.Window := Second |})
    0 0 0 "c1"
  = (limiter.with_redis
       (limiter.NewRateLimiter
          (limiter.Flaky limiter.newMockRedis [Some "connection reset"%string])
          {| limiter.Requests := 2; limiter.Window := Second |})
       (limiter.Flaky limiter.newMockRedis []),
     (false, 0, 0, Some "connection reset"%string))
  ∧ limiter.fixedWindow_Allow
      (limiter.NewRateLimiter
         (limiter.Flaky limiter.newMockRedis [None; Some "connection reset"%string])
         {| limiter.Requests := 2; limiter.Window := Second |})
      0 0 0 "c1"
    = (limiter.with_redis
         (limiter.NewRateLimiter
            (limiter.Flaky limiter.newMockRedis [None; Some "connection reset"%string])
            {| limiter.Requests := 2; limiter.Window := Second |})
         (limiter.Flaky
            (<["reatelimit:c1:-62135596800" :=
                 {| limiter.count := 1; limiter.ttl := zeroTime |}]> ∅)
            []),
       (false, 0, 0, Some "connection reset"%string))
  ∧ redis.Increment
      (redis.NewRedisStore
         (limiter.Flaky limiter.newMockRedis
            [None; None; Some "connection reset"%string]))
      0 0 0 "rate:c1" Second
    = (redis.NewRedisStore
         (limiter.Flaky
            (<["rate:c1" := {| limiter.count := 1; limiter.ttl := zeroTime |}]> ∅)
            []),
       (1, zeroTime, Some ("redis expire error: " +:+ "connection reset"))).
Proof.
  split; [|split].
  - refine (proj1 (proj2 (proj1 failed_call_no_rollback _ _
              (limiter.NewRateLimiter
                 (limiter.Flaky limiter.newMockRedis [Some "connection reset"%string])
                 {| limiter.Requests := 2; limiter.Window := Second |})
              0 0 0 "c1"))
              (limiter.Flaky limiter.newMockRedis [])
              0 "connection reset"%string eq_refl eq_refl _).
    reflexivity.
  - refine (proj1 (proj2 (proj2 (proj1 failed_call_no_rollback _ _
              (limiter.NewRateLimiter
                 (limiter.Flaky limiter.newMockRedis [None; Some "connection reset"%string])
                 {| limiter.Requests := 2; limiter.Window := Second |})
              0 0 0 "c1")))
              (limiter.Flaky
                 (<["reatelimit:c1:-62135596800" :=
                      {| limiter.count := 1; limiter.ttl := zeroTime |}]> ∅)
                 [Some "connection reset"%string])
              (limiter.Flaky
                 (<["reatelimit:c1:-62135596800" :=
                      {| limiter.count := 1; limiter.ttl := zeroTime |}]> ∅)
                 [])
              false "connection reset"%string eq_refl eq_refl _ _).
    + reflexivity.
    + reflexivity.
  - refine (proj1 (proj2 (proj2 (proj2 failed_call_no_rollback _ _
             (redis.NewRedisStore
                (limiter.Flaky limiter.newMockRedis
                   [None; None; Some "connection reset"%string]))
             0 0 0 "rate:c1" Second
             (limiter.Flaky
                (<["rate:c1" := {| limiter.count := 1; limiter.ttl := zeroTime |}]> ∅)
                [None; Some "connection reset"%string])
             1 None
             (limiter.Flaky
                (<["rate:c1" := {| limiter.count := 1; limiter.ttl := zeroTime |}]> ∅)
                [Some "connection reset"%string])
             (-1) None _ _)))
             (limiter.Flaky
                (<["rate:c1" := {| limiter.count := 1; limiter.ttl := zeroTime |}]> ∅)
                [])
             false "connection reset"%string eq_refl eq_refl _ _).
    + reflexivity.
    + reflexivity.
    + by left.
    + reflexivity.
Defined.

(** C4, counterexample.  The EXPIRE that follows a first INCR fails.
    [fixedWindow.Allow] and [RedisStore.Increment] both return a non-nil
    error, and the counter of the key, 0 before the call, is 1 after it. *)
Lemma failed_call_leaves_counter_incremented :
  let key := limiter.generateKey "c1" 0 Second in
  let r := limiter.fixedWindow_Allow
             (limiter.NewRateLimiter
                (limiter.Flaky limiter.newMockRedis [None; Some "connection reset"%string])
                {| limiter.Requests := 2; limiter.Window := Second |})
             0 0 0 "c1" in
  let s := redis.Increment
             (redis.NewRedisStore
                (limiter.Flaky limiter.newMockRedis
                   [None; None; Some "connection reset"%string]))
             0 0 0 "rate:c1" Second in
  limiter.count (limiter.mockLoad limiter.newMockRedis key) = 0
  ∧ r.2 = (false, 0, 0, Some "connection reset"%string)
  ∧ limiter.count (limiter.mockLoad (limiter.inner (limiter.redis r.1)) key) = 1
  ∧ limiter.count (limiter.mockLoad limiter.newMockRedis "rate:c1") = 0
  ∧ s.2 = (1, zeroTime, Some "redis expire error: connection reset"%string)
  ∧ limiter.count (limiter.mockLoad (limiter.inner (redis.client s.1)) "rate:c1") = 1.
Proof. cbv zeta. repeat split; reflexivity. Qed.

(** ** Window boundaries and keys of the epoch-truncated engine *)

Lemma generateKey_inj_Unix clientID t1 t2 window :
  limiter.generateKey clientID t1 window = limiter.generateKey clientID t2 window →
  Unix (limiter.windowStart t1 window) = Unix (limiter.windowStart t2 window).
Proof.
  unfold limiter.generateKey. intros Hk.
  do 3 apply (inj (String.app _)) in Hk.
  by apply (inj pretty) in Hk.
Qed.

Lemma Unix_separates_multiples (q1 q2 w : Z) :
  Second <= w → q1 ≠ q2 → Unix (q1 * w) ≠ Unix (q2 * w).
Proof.
  unfold Unix, Second. intros Hw Hq Hu.
  assert (q1 * w / 1000000000 = q2 * w / 1000000000) as Hd by lia.
  pose proof (Z.div_mod (q1 * w) 1000000000 ltac:(lia)) as H1.
  pose proof (Z.div_mod (q2 * w) 1000000000 ltac:(lia)) as H2.
  pose proof (Z.mod_pos_bound (q1 * w) 1000000000 ltac:(lia)).
  pose proof (Z.mod_pos_bound (q2 * w) 1000000000 ltac:(lia)).
  rewrite Hd in H1.
  assert (-1000000000 < q1 * w - q2 * w < 1000000000) as Hlt by lia.
  assert (q1 * w - q2 * w = (q1 - q2) * w) as Hf by lia.
  rewrite Hf in Hlt. nia.
Qed.

(** C7, as amended.  For window > 0, [windowStart] of a time t (nanoseconds
    since Go's zero time, as Truncate counts them) is floor(t / window) *
    window.  Two times with the same boundary give the same key for a client.
    When the window is at least one second, two times with different
    boundaries give different keys; the key carries the boundary in whole
    Unix seconds only. *)
Theorem generateKey_per_window (clientID : string) (window t1 t2 : Z) :
  0 < window →
  limiter.windowStart t1 window = t1 / window * window
  ∧ (limiter.windowStart t1 window = limiter.windowStart t2 window →
     limiter.generateKey clientID t1 window = limiter.generateKey clientID t2 window)
  ∧ (Second <= window →
     limiter.windowStart t1 window ≠ limiter.windowStart t2 window →
     limiter.generateKey clientID t1 window ≠ limiter.generateKey clientID t2 window).
Proof.
  intros Hw. split; [by apply windowStart_floor|]. split.
  - unfold limiter.generateKey. by intros ->.
  - intros Hsec Hne Hk. apply generateKey_inj_Unix in Hk.
    rewrite !windowStart_floor in * by done.
    apply (Unix_separates_multiples (t1 / window) (t2 / window) window) in Hk;
      [done | done | congruence].
Qed.

Lemma generateKey_per_window_witness :
  limiter.windowStart 63000000000000000000 (60 * Second)
    = 63000000000000000000 / (60 * Second) * (60 * Second)
  ∧ (limiter.windowStart 63000000000000000000 (60 * Second)
       = limiter.windowStart 63000000000000000001 (60 * Second) →
     limiter.generateKey "c1" 63000000000000000000 (60 * Second)
       = limiter.generateKey "c1" 63000000000000000001 (60 * Second))
  ∧ (Second <= 60 * Second →
     limiter.windowStart 63000000000000000000 (60 * Second)
       ≠ limiter.windowStart 63000000000000000001 (60 * Second) →
     limiter.generateKey "c1" 63000000000000000000 (60 * Second)
       ≠ limiter.generateKey "c1" 63000000000000000001 (60 * Second)).
Proof.
  apply (generateKey_per_window "c1" (60 * Second)
           63000000000000000000 63000000000000000001).
  reflexivity.
Defined.

(** C7, counterexample.  With a window of 500ms, the Unix epoch and the
    instant half a second later lie in different windows, yet the key of
    both is "reatelimit:c1:0". *)
Lemma generateKey_subsecond_window_collides :
  let window := 500000000 in
  let t1 := unixToInternal * Second in
  let t2 := t1 + 500000000 in
  0 < window
  ∧ limiter.windowStart t1 window ≠ limiter.windowStart t2 window
  ∧ limiter.generateKey "c1" t1 window = "reatelimit:c1:0"%string
  ∧ limiter.generateKey "c1" t2 window = "reatelimit:c1:0"%string.
Proof.
  cbv zeta. split; [reflexivity|]. split; [vm_compute; discriminate|].
  split; vm_compute; reflexivity.
Qed.

(** ** Clients without a configuration entry *)

Lemma effective_unknown {S} (l : internal_limiter.Limiter S) client :
  internal_limiter.configs l !! client = None →
  effective l client = config.DefaultConfig.
Proof. unfold effective. by intros ->. Qed.

(** C8.  A client with no entry in the configuration table is served under
    the default configuration, limit 100 per minute.  [Limiter.Allow] calls
    the store once, on the client's key and with the default window, keeps
    the store that call returns, and derives its answer from the default
    limit: when the store reports a count, allowed = (count <= 100),
    remaining = 100 - count clamped at 0, resetAt the expiry or zero when it
    lies before the clock reading, and a nil error; when the store reports
    an error, allowed with limit 100 and that error.  On the in-memory store
    the call after c requests of the current window returns a nil error, is
    admitted exactly when c + 1 <= 100, leaves max(0, 100 - (c + 1)) and
    stores the count c + 1.  [RateLimiter.GetLimit] returns the default limit
    for a client without an entry, and [fixedWindow.Allow] derives its
    decision from the count INCR returns and that default limit. *)
Theorem unknown_client_gets_default :
  config.DefaultConfig = {| config.Limit := 100; config.Window := Minute |}
  ∧ (∀ (S : Type) (St : internal_limiter.Store S) (l : internal_limiter.Limiter S)
       now now_s client s' counter expiry e0,
       internal_limiter.configs l !! client = None →
       internal_limiter.Increment (internal_limiter.store l) now_s
         (internal_limiter.keyForClient client) (config.Window config.DefaultConfig)
         = (s', (counter, expiry, e0)) →
       internal_limiter.Allow l now now_s client
         = (internal_limiter.NewLimiter s' (internal_limiter.configs l),
            match e0 with
            | Some e => (true, config.Limit config.DefaultConfig, zeroTime, Some e)
            | None =>
                (counter <=? config.Limit config.DefaultConfig,
                 (if sub64 (config.Limit config.DefaultConfig) counter <? 0 then 0
                  else sub64 (config.Limit config.DefaultConfig) counter),
                 (if Before expiry now then zeroTime else expiry),
                 None)
            end))
  ∧ (∀ (l : internal_limiter.Limiter memory.MemoryStore) now now_s client c E,
       internal_limiter.configs l !! client = None →
       window_at (internal_limiter.store l) now_s (internal_limiter.keyForClient client)
         (config.Window config.DefaultConfig) = (c, E) →
       0 <= c < MaxInt64 →
       internal_limiter.Allow l now now_s client
         = (internal_limiter.NewLimiter
              (<[internal_limiter.keyForClient client :=
                   Some {| memory.Count := c + 1; memory.Expiry := E |}]>
                 (internal_limiter.store l))
              (internal_limiter.configs l),
            (c + 1 <=? 100, Z.max 0 (100 - (c + 1)),
             (if Before E now then zeroTime else E), None)))
  ∧ (∀ (R : Type) (Rc : limiter.RedisClient R) (rl : limiter.RateLimiter R)
       now t_incr t_exp clientID,
       limiter.clientLimits rl !! clientID = None →
       limiter.GetLimit rl clientID = limiter.defaultLimit rl
       ∧ (∀ r1 count,
            0 < limiter.Requests (limiter.defaultLimit rl) →
            0 < limiter.Window (limiter.defaultLimit rl) →
            limiter.Incr (limiter.redis rl) t_incr
              (limiter.generateKey clientID now (limiter.Window (limiter.defaultLimit rl)))
              = (r1, (count, None)) →
            (count = 1 →
             (limiter.Expire r1 t_exp
                (limiter.generateKey clientID now (limiter.Window (limiter.defaultLimit rl)))
                (limiter.Window (limiter.defaultLimit rl))).2.2 = None) →
            (limiter.fixedWindow_Allow rl now t_incr t_exp clientID).2
              = (count <=? limiter.Requests (limiter.defaultLimit rl),
                 (if sub64 (limiter.Requests (limiter.defaultLimit rl)) count <? 0 then 0
                  else sub64 (limiter.Requests (limiter.defaultLimit rl)) count),
                 Sub (Add (limiter.windowStart now (limiter.Window (limiter.defaultLimit rl)))
                          (limiter.Window (limiter.defaultLimit rl))) now,
                 None))).
Proof.
  split; [reflexivity|]. split; [|split].
  - intros S St l now now_s client s' counter expiry e0 Hnone HI.
    rewrite <- (effective_unknown l client Hnone) in HI.
    destruct e0 as [e|].
    + rewrite (Allow_store_error l now now_s client s' counter expiry e HI).
      by rewrite (effective_unknown l client Hnone).
    + rewrite (Allow_success l now now_s client s' counter expiry HI).
      by rewrite (effective_unknown l client Hnone).
  - intros l now now_s client c E Hnone Hw Hc.
    rewrite <- (effective_unknown l client Hnone) in Hw.
    rewrite (Allow_memory l now now_s client c E Hw).
    rewrite (effective_unknown l client Hnone).
    rewrite add64_succ by (unfold MinInt64, MaxInt64 in *; lia).
    unfold decision. cbn [config.Limit config.DefaultConfig].
    rewrite remaining_clamped by (unfold MaxInt64 in *; lia).
    done.
  - intros R Rc rl now t_incr t_exp clientID Hnone.
    assert (limiter.GetLimit rl clientID = limiter.defaultLimit rl) as HG.
    { unfold limiter.GetLimit. by rewrite Hnone. }
    split; [exact HG|].
    intros r1 count HR HW HI HE.
    rewrite <- HG in *.
    exact (fixedWindow_Allow_success rl now t_incr t_exp clientID r1 count HR HW HI HE).
Qed.

Lemma unknown_client_gets_default_witness :
  internal_limiter.Allow
    (internal_limiter.NewLimiter
       (<["rate:unknown-client" := Some {| memory.Count := 99; memory.Expiry := 70 |}]>
          memory.NewMemoryStore)
       config.Clients)
    50 40 "unknown-client"
  = (internal_limiter.NewLimiter
       (<[internal_limiter.keyForClient "unknown-client" :=
            Some {| memory.Count := 99 + 1; memory.Expiry := 70 |}]>
          (internal_limiter.store
             (internal_limiter.NewLimiter
                (<["rate:unknown-client" :=
                     Some {| memory.Count := 99; memory.Expiry := 70 |}]>
                   memory.NewMemoryStore)
                config.Clients)))
       (internal_limiter.configs
          (internal_limiter.NewLimiter
             (<["rate:unknown-client" :=
                  Some {| memory.Count := 99; memory.Expiry := 70 |}]>
                memory.NewMemoryStore)
             config.Clients)),
     (99 + 1 <=? 100, Z.max 0 (100 - (99 + 1)),
      (if Before 70 50 then zeroTime else 70), None))
  ∧ internal_limiter.Allow
      (internal_limiter.NewLimiter internal_limiter.MockStoreError config.Clients)
      50 40 "unknown-client"
    = (internal_limiter.NewLimiter internal_limiter.MockStoreError
         (internal_limiter.configs
            (internal_limiter.NewLimiter internal_limiter.MockStoreError
               config.Clients)),
       (true, config.Limit config.DefaultConfig, zeroTime, Some "mock increment error"%string))
  ∧ limiter.GetLimit
      (limiter.SetLimit
         (limiter.NewRateLimiter limiter.newMockRedis
            {| limiter.Requests := 100; limiter.Window := Minute |})
         "alpha" {| limiter.Requests := 50; limiter.Window := 30 * Second |})
      "bob"
    = limiter.defaultLimit
        (limiter.SetLimit
           (limiter.NewRateLimiter limiter.newMockRedis
              {| limiter.Requests := 100; limiter.Window := Minute |})
           "alpha" {| limiter.Requests := 50; limiter.Window := 30 * Second |}).
Proof.
  split; [|split].
  - refine (proj1 (proj2 (proj2 unknown_client_gets_default))
              (internal_limiter.NewLimiter
                 (<["rate:unknown-client" :=
                      Some {| memory.Count := 99; memory.Expiry := 70 |}]>
                    memory.NewMemoryStore)
                 config.Clients)
              50 40 "unknown-client" 99 70 _ _ _).
    + reflexivity.
    + reflexivity.
    + unfold MaxInt64. lia.
  - refine (proj1 (proj2 unknown_client_gets_default) _ _
              (internal_limiter.NewLimiter internal_limiter.MockStoreError
                 config.Clients)
              50 40 "unknown-client" internal_limiter.MockStoreError
              0 zeroTime (Some "mock increment error"%string) _ _).
    + reflexivity.
    + reflexivity.
  - refine (proj1 (proj2 (proj2 (proj2 unknown_client_gets_default)) limiter.mockRedis _
              (limiter.SetLimit
                 (limiter.NewRateLimiter limiter.newMockRedis
                    {| limiter.Requests := 100; limiter.Window := Minute |})
                 "alpha" {| limiter.Requests := 50; limiter.Window := 30 * Second |})
              0 0 0 "bob" _)).
    reflexivity.
Defined.

(** * Further properties of the in-memory store *)

(** X1.  Get after Increment.  Up to and including the instant of the expiry that
    Increment returned, Get on the same key returns the very count and expiry
    of that Increment; at any later instant it returns 0 and the zero time. *)
Theorem Get_after_Increment (s : memory.MemoryStore) now key ttl now' :
  (now' <= (memory.Increment s now key ttl).2.1.2 →
   (memory.Get (memory.Increment s now key ttl).1 now' key).2
     = (memory.Increment s now key ttl).2)
  ∧ ((memory.Increment s now key ttl).2.1.2 < now' →
     (memory.Get (memory.Increment s now key ttl).1 now' key).2
       = (0, zeroTime, None)).
Proof.
  destruct (window_at s now key ttl) as [c E] eqn:Hw.
  rewrite (Increment_window s now key ttl c E Hw). simpl.
  unfold memory.Get. rewrite lookup_insert_eq. simpl.
  split; intros HE.
  - apply Before_false in HE. by rewrite HE.
  - apply Before_true in HE. by rewrite HE.
Qed.

Lemma Get_after_Increment_witness :
  (memory.Get (memory.Increment memory.NewMemoryStore 100 "foo:1" 50).1 120 "foo:1").2
    = (1, 150, None)
  ∧ (memory.Get (memory.Increment memory.NewMemoryStore 100 "foo:1" 50).1 151 "foo:1").2
    = (0, zeroTime, None).
Proof.
  split.
  - apply (proj1 (Get_after_Increment memory.NewMemoryStore 100 "foo:1" 50 120)).
    vm_compute. discriminate.
  - apply (proj2 (Get_after_Increment memory.NewMemoryStore 100 "foo:1" 50 151)).
    vm_compute. reflexivity.
Defined.

(** X2.  Increment touches its own key only: the slot of every other key is the
    same before and after, and so is what Get and Increment return for it. *)
Theorem Increment_other_keys (s : memory.MemoryStore) now key ttl key' now' ttl' :
  key' ≠ key →
  (memory.Increment s now key ttl).1 !! key' = s !! key'
  ∧ (memory.Get (memory.Increment s now key ttl).1 now' key').2
    = (memory.Get s now' key').2
  ∧ (memory.Increment (memory.Increment s now key ttl).1 now' key' ttl').2
    = (memory.Increment s now' key' ttl').2.
Proof.
  intros Hne.
  assert ((memory.Increment s now key ttl).1 !! key' = s !! key') as Hk.
  { destruct (window_at s now key ttl) as [c E] eqn:Hw.
    rewrite (Increment_window s now key ttl c E Hw). simpl.
    by rewrite lookup_insert_ne. }
  split; [done|].
  revert Hk. generalize (memory.Increment s now key ttl).1. intros s1 Hk.
  unfold memory.Get, memory.Increment. rewrite Hk.
  destruct (s !! key') as [[e|]|]; [|done|done].
  by destruct (Before (memory.Expiry e) now').
Qed.

Lemma Increment_other_keys_witness :
  (memory.Increment memory.NewMemoryStore 0 "a" 5).1 !! "b" = memory.NewMemoryStore !! "b"
  ∧ (memory.Get (memory.Increment memory.NewMemoryStore 0 "a" 5).1 1 "b").2
    = (memory.Get memory.NewMemoryStore 1 "b").2
  ∧ (memory.Increment (memory.Increment memory.NewMemoryStore 0 "a" 5).1 1 "b" 7).2
    = (memory.Increment memory.NewMemoryStore 1 "b" 7).2.
Proof.
  apply (Increment_other_keys memory.NewMemoryStore 0 "a" 5 "b" 1 7).
  discriminate.
Defined.

Lemma cleanupSweep_lookup (s : memory.MemoryStore) t key :
  memory.cleanupSweep t s !! key =
    match s !! key with
    | Some (Some e) => if Before (memory.Expiry e) t then None else Some (Some e)
    | _ => None
    end.
Proof.
  unfold memory.cleanupSweep.
  destruct (s !! key) as [[e|]|] eqn:Hk.
  - destruct (Before (memory.Expiry e) t) eqn:HB.
    + apply map_lookup_filter_None. right. intros slot Hslot.
      rewrite Hk in Hslot. injection Hslot as <-. simpl. by rewrite HB.
    + apply map_lookup_filter_Some. split; [done|]. simpl. by rewrite HB.
  - apply map_lookup_filter_None. right. intros slot Hslot.
    rewrite Hk in Hslot. by injection Hslot as <-.
  - apply map_lookup_filter_None. by left.
Qed.

(** X3.  The sweep of cleanupLoop is invisible to later readers.  For a clock
    reading not earlier than the sweep's, Get and Increment return the same
    count, expiry and error on the swept store as on the store it was
    applied to. *)
Theorem cleanupSweep_transparent (s : memory.MemoryStore) t now key ttl :
  t <= now →
  (memory.Get (memory.cleanupSweep t s) now key).2 = (memory.Get s now key).2
  ∧ (memory.Increment (memory.cleanupSweep t s) now key ttl).2
    = (memory.Increment s now key ttl).2.
Proof.
  intros Ht. unfold memory.Get, memory.Increment.
  rewrite cleanupSweep_lookup.
  destruct (s !! key) as [[e|]|]; [|done|done].
  destruct (Before (memory.Expiry e) t) eqn:HBt.
  - apply Before_true in HBt.
    assert (Before (memory.Expiry e) now = true) as ->
      by (apply Before_true; lia). done.
  - by destruct (Before (memory.Expiry e) now).
Qed.

Lemma cleanupSweep_transparent_witness :
  let s := (memory.Increment memory.NewMemoryStore 0 "a" 5).1 in
  (memory.Get (memory.cleanupSweep 30 s) 31 "a").2 = (memory.Get s 31 "a").2
  ∧ (memory.Increment (memory.cleanupSweep 30 s) 31 "a" 5).2
    = (memory.Increment s 31 "a" 5).2.
Proof.
  apply (cleanupSweep_transparent
           (memory.Increment memory.NewMemoryStore 0 "a" 5).1 30 31 "a" 5).
  lia.
Defined.

(** X4.  What the sweep leaves.  After a sweep at instant t every slot holds a
    non-nil entry that expires at t or later; every such entry of the store
    is kept as it was; sweeping again at t changes nothing. *)
Theorem cleanupSweep_result (s : memory.MemoryStore) t :
  (∀ key slot, memory.cleanupSweep t s !! key = Some slot →
     ∃ e, slot = Some e ∧ s !! key = Some (Some e) ∧ t <= memory.Expiry e)
  ∧ (∀ key e, s !! key = Some (Some e) → t <= memory.Expiry e →
       memory.cleanupSweep t s !! key = Some (Some e))
  ∧ memory.cleanupSweep t (memory.cleanupSweep t s) = memory.cleanupSweep t s.
Proof.
  split; [|split].
  - intros key slot. rewrite cleanupSweep_lookup.
    destruct (s !! key) as [[e|]|]; [|done|done].
    destruct (Before (memory.Expiry e) t) eqn:HB; [done|].
    intros [= <-]. exists e. by apply Before_false in HB.
  - intros key e Hk He. rewrite cleanupSweep_lookup, Hk.
    apply Before_false in He. by rewrite He.
  - apply map_eq. intros key. rewrite !cleanupSweep_lookup.
    destruct (s !! key) as [[e|]|]; [|done|done].
    destruct (Before (memory.Expiry e) t) eqn:HB; [done|]. by rewrite HB.
Qed.

Lemma run_cons_results s o ops :
  (memory.run s (o :: ops)).2 =
    match (memory.step s o).2 with
    | Some c => c :: (memory.run (memory.step s o).1 ops).2
    | None => (memory.run (memory.step s o).1 ops).2
    end.
Proof.
  simpl. destruct (memory.step s o) as [s1 r]. simpl.
  by destruct (memory.run s1 ops).
Qed.

Lemma run_repeat_results now key ttl n : ∀ (s : memory.MemoryStore) e,
  s !! key = Some (Some e) → now <= memory.Expiry e →
  0 <= memory.Count e → memory.Count e + Z.of_nat n <= MaxInt64 →
  (memory.run s (repeat (memory.OpIncrement now key ttl) n)).2
    = map (λ i, memory.Count e + Z.of_nat i) (seq 1 n).
Proof.
  induction n as [|n IH]; intros s e Hk Hlive Hc Hmax; [done|].
  cbn [repeat]. rewrite run_cons_results. cbn [memory.step].
  rewrite (Increment_live s now key ttl e Hk Hlive). cbn [fst snd].
  rewrite add64_succ by (unfold MinInt64, MaxInt64 in *; lia).
  erewrite (IH _ {| memory.Count := memory.Count e + 1;
                    memory.Expiry := memory.Expiry e |});
    [| apply lookup_insert_eq | done | simpl; lia | simpl; lia].
  cbn [seq map memory.Count]. f_equal.
  rewrite <- (seq_shift n 1), map_map. apply map_ext. intros i. lia.
Qed.

(** X5.  A run of n Increments of a key that the store does not hold, all at one
    instant and with a ttl >= 0, for 0 < n < 2^63: the i-th Increment returns
    i, and Get, up to the expiry now + ttl, returns the count n and that
    expiry. *)
Theorem n_Increments_count_n (s : memory.MemoryStore) now key ttl n now' :
  s !! key = None → 0 <= ttl → (0 < n)%nat → Z.of_nat n < 2 ^ 63 →
  now' <= now + ttl →
  (memory.run s (repeat (memory.OpIncrement now key ttl) n)).2
    = map Z.of_nat (seq 1 n)
  ∧ (memory.Get (memory.run s (repeat (memory.OpIncrement now key ttl) n)).1 now' key).2
    = (Z.of_nat n, now + ttl, None).
Proof.
  intros Hk Httl Hn Hmax Hnow'. destruct n as [|n]; [lia|].
  cbn [repeat]. rewrite run_cons_results, run_cons_store. cbn [memory.step].
  rewrite (Increment_fresh s now key ttl (or_introl Hk)). cbn [fst snd].
  split.
  - rewrite (run_repeat_results now key ttl n _
               {| memory.Count := 1; memory.Expiry := now + ttl |});
      [| apply lookup_insert_eq | simpl; lia | simpl; lia
       | simpl; unfold MaxInt64; lia].
    cbn [seq map memory.Count]. f_equal.
    rewrite <- (seq_shift n 1), map_map. apply map_ext. intros i. lia.
  - unfold memory.Get.
    rewrite (run_repeat_Increment now key ttl n _
               {| memory.Count := 1; memory.Expiry := now + ttl |} 1);
      [| apply lookup_insert_eq | simpl; lia | reflexivity].
    cbn [memory.Expiry memory.Count].
    assert (Before (now + ttl) now' = false) as -> by (apply Before_false; lia).
    rewrite wrap64_id by (unfold MinInt64, MaxInt64; lia).
    by replace (Z.of_nat (S n)) with (1 + Z.of_nat n) by lia.
Qed.

Lemma n_Increments_count_n_witness :
  (memory.run memory.NewMemoryStore
     (repeat (memory.OpIncrement 0 "concurrent:1" Second) 100)).2
    = map Z.of_nat (seq 1 100)
  ∧ (memory.Get
       (memory.run memory.NewMemoryStore
          (repeat (memory.OpIncrement 0 "concurrent:1" Second) 100)).1
       5 "concurrent:1").2
    = (Z.of_nat 100, 0 + Second, None).
Proof.
  apply (n_Increments_count_n memory.NewMemoryStore 0 "concurrent:1" Second 100 5).
  - reflexivity.
  - discriminate.
  - lia.
  - reflexivity.
  - discriminate.
Defined.

(** * Further properties of the lazy-TTL engine *)

Lemma keyForClient_inj a b :
  internal_limiter.keyForClient a = internal_limiter.keyForClient b → a = b.
Proof. unfold internal_limiter.keyForClient. apply (inj (String.app _)). Qed.

Lemma window_at_insert_ne (s : memory.MemoryStore) now_s key key' ttl slot :
  key' ≠ key →
  window_at (<[key := slot]> s) now_s key' ttl = window_at s now_s key' ttl.
Proof. intros Hne. unfold window_at. by rewrite lookup_insert_ne. Qed.

(** X6.  Clients do not share quota.  A call of [Limiter.Allow] for client a on
    the in-memory store leaves the slot of every other client b as it was,
    and the decision of a following call for b is the one b would have got
    without a's call. *)
Theorem Allow_client_isolation (l : internal_limiter.Limiter memory.MemoryStore)
  now now_s a now' now_s' b :
  a ≠ b →
  internal_limiter.store (internal_limiter.Allow l now now_s a).1
    !! internal_limiter.keyForClient b
    = internal_limiter.store l !! internal_limiter.keyForClient b
  ∧ (internal_limiter.Allow (internal_limiter.Allow l now now_s a).1 now' now_s' b).2
    = (internal_limiter.Allow l now' now_s' b).2.
Proof.
  intros Hab.
  assert (internal_limiter.keyForClient b ≠ internal_limiter.keyForClient a) as Hk.
  { intros Heq. apply keyForClient_inj in Heq. congruence. }
  destruct (window_at (internal_limiter.store l) now_s
              (internal_limiter.keyForClient a)
              (config.Window (effective l a))) as [c E] eqn:Hw.
  rewrite (Allow_memory l now now_s a c E Hw). cbn [fst internal_limiter.store].
  split; [by rewrite lookup_insert_ne|].
  destruct (window_at (internal_limiter.store l) now_s'
              (internal_limiter.keyForClient b)
              (config.Window (effective l b))) as [c' E'] eqn:Hw'.
  rewrite (Allow_memory l now' now_s' b c' E' Hw').
  erewrite (Allow_memory _ now' now_s' b c' E'); [done|].
  unfold effective in *. cbn [internal_limiter.store internal_limiter.configs].
  by rewrite window_at_insert_ne.
Qed.

Lemma Allow_client_isolation_witness :
  let l := internal_limiter.NewLimiter memory.NewMemoryStore config.Clients in
  internal_limiter.store (internal_limiter.Allow l 0 0 "client-1").1
    !! internal_limiter.keyForClient "client-2"
    = internal_limiter.store l !! internal_limiter.keyForClient "client-2"
  ∧ (internal_limiter.Allow (internal_limiter.Allow l 0 0 "client-1").1 1 1 "client-2").2
    = (internal_limiter.Allow l 1 1 "client-2").2.
Proof.
  apply (Allow_client_isolation
           (internal_limiter.NewLimiter memory.NewMemoryStore config.Clients)
           0 0 "client-1" 1 1 "client-2").
  discriminate.
Defined.

(** X7.  A new window after the old one elapsed.  When the entry of the client
    expired strictly before the store's clock reading, [Limiter.Allow] on the
    in-memory store replaces it by an entry with count 1 and expiry
    now_s + window, whatever the old count was, and decides on count 1:
    allowed when the limit is at least 1, remaining max(0, limit - 1),
    resetAt the new expiry. *)
Theorem Allow_after_window_elapsed (l : internal_limiter.Limiter memory.MemoryStore)
  now now_s client e :
  internal_limiter.store l !! internal_limiter.keyForClient client = Some (Some e) →
  memory.Expiry e < now_s →
  0 <= config.Limit (effective l client) <= MaxInt64 →
  now <= now_s + config.Window (effective l client) →
  internal_limiter.Allow l now now_s client =
    (internal_limiter.NewLimiter
       (<[internal_limiter.keyForClient client :=
            Some {| memory.Count := 1;
                    memory.Expiry := now_s + config.Window (effective l client) |}]>
          (internal_limiter.store l))
       (internal_limiter.configs l),
     (1 <=? config.Limit (effective l client),
      Z.max 0 (config.Limit (effective l client) - 1),
      now_s + config.Window (effective l client), None)).
Proof.
  intros Hk Hexp Hl Hnow.
  rewrite (Allow_memory l now now_s client 0
             (now_s + config.Window (effective l client))).
  - unfold decision. rewrite remaining_clamped by (unfold MaxInt64 in *; done || lia).
    apply Before_false in Hnow. by rewrite Hnow.
  - unfold window_at. rewrite Hk. apply Before_true in Hexp. by rewrite Hexp.
Qed.

Lemma Allow_after_window_elapsed_witness :
  let l := internal_limiter.NewLimiter
             {[ "rate:client-1" := Some {| memory.Count := 6; memory.Expiry := 60 * Second |} ]}
             config.Clients in
  (internal_limiter.Allow l (61 * Second) (61 * Second) "client-1").2
    = (true, 4, 121 * Second, None).
Proof.
  cbv zeta.
  rewrite (Allow_after_window_elapsed
             (internal_limiter.NewLimiter
                {[ "rate:client-1" := Some {| memory.Count := 6; memory.Expiry := 60 * Second |} ]}
                config.Clients)
             (61 * Second) (61 * Second) "client-1"
             {| memory.Count := 6; memory.Expiry := 60 * Second |}).
  - reflexivity.
  - reflexivity.
  - reflexivity.
  - vm_compute. split; discriminate.
  - vm_compute. discriminate.
Defined.

Lemma window_at_expiry_ge (s : memory.MemoryStore) now_s key ttl c E :
  window_at s now_s key ttl = (c, E) → 0 <= ttl → now_s <= E.
Proof.
  unfold window_at. intros Hw Httl.
  destruct (s !! key) as [[e|]|];
    [destruct (Before (memory.Expiry e) now_s) eqn:HB| |];
    injection Hw as <- <-; try lia.
  by apply Before_false in HB.
Qed.

(** X8.  With the in-memory store the resetAt of a decision is the expiry of the
    window the call landed in, never the zero-time substitute, provided the
    window length is not negative and the store reads the clock no earlier
    than Allow did; that expiry is not before the store's reading. *)
Theorem Allow_memory_resetAt (l : internal_limiter.Limiter memory.MemoryStore)
  now now_s client c E :
  window_at (internal_limiter.store l) now_s (internal_limiter.keyForClient client)
    (config.Window (effective l client)) = (c, E) →
  0 <= config.Window (effective l client) → now <= now_s →
  resetAt (internal_limiter.Allow l now now_s client).2 = E ∧ now_s <= E.
Proof.
  intros Hw Httl Hnow.
  pose proof (window_at_expiry_ge _ _ _ _ _ _ Hw Httl) as HE.
  rewrite (Allow_memory l now now_s client c E Hw).
  unfold decision, resetAt. simpl.
  assert (Before E now = false) as -> by (apply Before_false; lia). done.
Qed.

Lemma Allow_memory_resetAt_witness :
  resetAt (internal_limiter.Allow
             (internal_limiter.NewLimiter memory.NewMemoryStore config.Clients)
             5 6 "client-1").2 = 6 + 60 * Second
  ∧ 6 <= 6 + 60 * Second.
Proof.
  apply (Allow_memory_resetAt
           (internal_limiter.NewLimiter memory.NewMemoryStore config.Clients)
           5 6 "client-1" 0 (6 + 60 * Second)).
  - reflexivity.
  - vm_compute. discriminate.
  - lia.
Defined.

Lemma filter_length_prefix {A} (f : A → bool) (l : list A) : ∀ k,
  (∀ i d, l !! i = Some d → (f d = true ↔ (i < k)%nat)) →
  length (List.filter f l) = Nat.min (length l) k.
Proof.
  induction l as [|d l IH]; intros k Hf; [done|].
  pose proof (Hf 0%nat d eq_refl) as Hd. simpl.
  destruct k as [|k].
  - destruct (f d) eqn:Hfd; [destruct Hd as [Hd _]; specialize (Hd eq_refl); lia|].
    rewrite (IH 0%nat); [lia|]. intros i d' Hi.
    specialize (Hf (S i) d' Hi). split; [intros H; apply Hf in H|]; lia.
  - destruct (f d) eqn:Hfd.
    + simpl. rewrite (IH k); [done|]. intros i d' Hi.
      specialize (Hf (S i) d' Hi). rewrite Hf. lia.
    + destruct Hd as [_ Hd]. discriminate Hd. lia.
Qed.

(** X9.  No over-admission, no under-admission.  Of the calls of [Limiter.Allow]
    for one client that land in one window of the in-memory store (count so
    far c0, limit and cumulative count within int64), exactly
    min(number of calls, max(0, limit - c0)) are allowed. *)
Theorem Allow_admits_up_to_limit (l : internal_limiter.Limiter memory.MemoryStore)
  client now now_s rest c0 E :
  window_at (internal_limiter.store l) now_s (internal_limiter.keyForClient client)
    (config.Window (effective l client)) = (c0, E) →
  Forall (λ call : Time * Time, call.2 <= E) rest →
  0 <= config.Limit (effective l client) <= MaxInt64 →
  0 <= c0 → c0 + Z.of_nat (S (length rest)) <= MaxInt64 →
  length (List.filter allowed
            (internal_limiter.AllowSeq l client ((now, now_s) :: rest)).2)
    = Nat.min (S (length rest)) (Z.to_nat (config.Limit (effective l client) - c0)).
Proof.
  intros Hw Hrest Hl Hc0 Hlen.
  rewrite (filter_length_prefix allowed _
             (Z.to_nat (config.Limit (effective l client) - c0))).
  - by rewrite AllowSeq_length.
  - intros i d Hi.
    destruct (decisions_in_window l client now now_s rest c0 E i d) as [call ->];
      try done.
    unfold decision, allowed. simpl. rewrite Z.leb_le. lia.
Qed.

Lemma Allow_admits_up_to_limit_witness :
  length (List.filter allowed
            (internal_limiter.AllowSeq
               (internal_limiter.NewLimiter memory.NewMemoryStore config.Clients)
               "client-2" [(0, 0); (1, 1); (2, 2); (3, 3)]).2)
    = Nat.min 4 (Z.to_nat (2 - 0)).
Proof.
  apply (Allow_admits_up_to_limit
           (internal_limiter.NewLimiter memory.NewMemoryStore config.Clients)
           "client-2" 0 0 [(1, 1); (2, 2); (3, 3)] 0 (60 * Second)).
  - reflexivity.
  - repeat constructor; simpl; unfold Second; lia.
  - vm_compute. split; discriminate.
  - lia.
  - vm_compute. discriminate.
Defined.

(** * Further properties of the epoch-truncated engine *)

(** X10.  SetLimit and GetLimit.  GetLimit returns the limit last set for the
    client, SetLimit for one client changes the limit of no other, a second
    SetLimit for a client overrides the first, and neither the backend handle
    nor the default limit is touched. *)
Theorem GetLimit_SetLimit {R} (r : limiter.RateLimiter R) c l l' c' :
  limiter.GetLimit (limiter.SetLimit r c l) c = l
  ∧ (c' ≠ c → limiter.GetLimit (limiter.SetLimit r c l) c' = limiter.GetLimit r c')
  ∧ limiter.SetLimit (limiter.SetLimit r c l) c l' = limiter.SetLimit r c l'
  ∧ limiter.redis (limiter.SetLimit r c l) = limiter.redis r
  ∧ limiter.defaultLimit (limiter.SetLimit r c l) = limiter.defaultLimit r.
Proof.
  unfold limiter.GetLimit, limiter.SetLimit. simpl.
  split; [by rewrite lookup_insert_eq|].
  split; [intros Hne; by rewrite lookup_insert_ne|].
  split; [by rewrite insert_insert_eq|]. done.
Qed.

Lemma GetLimit_SetLimit_witness :
  let r := limiter.NewRateLimiter limiter.newMockRedis
             {| limiter.Requests := 100; limiter.Window := Minute |} in
  let alpha := {| limiter.Requests := 50; limiter.Window := 30 * Second |} in
  limiter.GetLimit (limiter.SetLimit r "alpha" alpha) "bob" = limiter.GetLimit r "bob".
Proof.
  cbv zeta.
  apply (proj1 (proj2 (GetLimit_SetLimit
           (limiter.NewRateLimiter limiter.newMockRedis
              {| limiter.Requests := 100; limiter.Window := Minute |})
           "alpha" {| limiter.Requests := 50; limiter.Window := 30 * Second |}
           {| limiter.Requests := 50; limiter.Window := 30 * Second |} "bob"))).
  discriminate.
Defined.

(** X11.  A malformed limit is refused before the backend is used.  When the limit
    in force for the client has requests <= 0 or window <= 0,
    [RateLimiter.Allow] returns allowed = false, remaining 0, resetIn 0 and
    the error "invalid limit configuration for client <id>", and the limiter,
    its backend included, is unchanged: no command was issued. *)
Theorem Allow_rejects_invalid_limit {R} `{!limiter.RedisClient R}
  (rl : limiter.RateLimiter R) now t_incr t_exp clientID :
  limiter.Requests (limiter.GetLimit rl clientID) <= 0
  ∨ limiter.Window (limiter.GetLimit rl clientID) <= 0 →
  limiter.Allow rl now t_incr t_exp clientID =
    (rl, (false, 0, 0, Some ("invalid limit configuration for client " +:+ clientID))).
Proof. apply fixedWindow_Allow_invalid_config. Qed.

Lemma Allow_rejects_invalid_limit_witness :
  let rl := limiter.SetLimit
              (limiter.NewRateLimiter
                 (limiter.Flaky limiter.newMockRedis [Some "unreachable"%string])
                 {| limiter.Requests := 100; limiter.Window := Minute |})
              "special" {| limiter.Requests := 1; limiter.Window := 0 |} in
  limiter.Allow rl 0 0 0 "special" =
    (rl, (false, 0, 0, Some "invalid limit configuration for client special"%string)).
Proof.
  cbv zeta.
  apply (Allow_rejects_invalid_limit
           (limiter.SetLimit
              (limiter.NewRateLimiter
                 (limiter.Flaky limiter.newMockRedis [Some "unreachable"%string])
                 {| limiter.Requests := 100; limiter.Window := Minute |})
              "special" {| limiter.Requests := 1; limiter.Window := 0 |})
           0 0 0 "special").
  right. vm_compute. discriminate.
Defined.

(** X12.  Window boundaries.  For window > 0 the boundary of t is a multiple of
    the window with windowStart <= t < windowStart + window; every instant of
    that interval has the same boundary, so the boundary of a boundary is
    itself; a later instant never has an earlier boundary.  For window <= 0
    windowStart returns t unchanged. *)
Theorem windowStart_interval (t t' window : Z) :
  (0 < window →
   limiter.windowStart t window <= t < limiter.windowStart t window + window
   ∧ limiter.windowStart t window mod window = 0
   ∧ (limiter.windowStart t window <= t' < limiter.windowStart t window + window →
      limiter.windowStart t' window = limiter.windowStart t window)
   ∧ (t <= t' → limiter.windowStart t window <= limiter.windowStart t' window))
  ∧ (window <= 0 → limiter.windowStart t window = t).
Proof.
  split.
  - intros Hw. rewrite !windowStart_floor by done.
    pose proof (Z.mul_div_le t window Hw).
    pose proof (Z.mul_succ_div_gt t window Hw).
    split; [lia|]. split; [apply Z.mod_mul; lia|]. split.
    + intros Ht'. f_equal. symmetry.
      apply (Z.div_unique t' window (t / window) (t' - t / window * window)); lia.
    + intros Hle. apply Z.mul_le_mono_nonneg_r; [lia|].
      by apply Z.div_le_mono.
  - intros Hw. unfold limiter.windowStart, Truncate.
    destruct (Z.leb_spec window 0); [done | lia].
Qed.

Lemma windowStart_interval_witness :
  (limiter.windowStart 125 60 <= 125 < limiter.windowStart 125 60 + 60
   ∧ limiter.windowStart 125 60 mod 60 = 0
   ∧ (limiter.windowStart 125 60 <= 179 < limiter.windowStart 125 60 + 60 →
      limiter.windowStart 179 60 = limiter.windowStart 125 60)
   ∧ (125 <= 179 → limiter.windowStart 125 60 <= limiter.windowStart 179 60))
  ∧ limiter.windowStart 125 0 = 125.
Proof.
  split.
  - apply (proj1 (windowStart_interval 125 179 60)). reflexivity.
  - apply (proj2 (windowStart_interval 125 179 0)). discriminate.
Defined.

(** *** The epoch-truncated engine over mockRedis *)

Lemma generateKey_same_window clientID t1 t2 window :
  limiter.windowStart t1 window = limiter.windowStart t2 window →
  limiter.generateKey clientID t1 window = limiter.generateKey clientID t2 window.
Proof. unfold limiter.generateKey. by intros ->. Qed.

Lemma mockIncr_live (m : limiter.mockRedis) now key c T :
  m !! key = Some {| limiter.count := c; limiter.ttl := T |} → now <= T →
  limiter.mockIncr m now key =
    (<[key := {| limiter.count := add64 c 1; limiter.ttl := T |}]> m,
     (add64 c 1, None)).
Proof.
  intros Hk HT. unfold limiter.mockIncr, limiter.mockLoad. rewrite Hk. simpl.
  assert (After now T = false) as -> by (unfold After; apply Z.ltb_ge; lia).
  by rewrite andb_false_r.
Qed.

Lemma mockIncr_fresh (m : limiter.mockRedis) now key :
  m !! key = None →
  limiter.mockIncr m now key =
    (<[key := {| limiter.count := 1; limiter.ttl := zeroTime |}]> m, (1, None)).
Proof.
  intros Hk. unfold limiter.mockIncr, limiter.mockLoad. by rewrite Hk.
Qed.

Lemma mockExpire_present (m : limiter.mockRedis) now key d e :
  m !! key = Some e →
  limiter.mockExpire m now key d =
    (<[key := {| limiter.count := limiter.count e; limiter.ttl := now + d |}]> m,
     (true, None)).
Proof.
  intros Hk. unfold limiter.mockExpire, limiter.mockLoad, Add. by rewrite Hk.
Qed.

Lemma resetIn_pos (now window : Z) :
  0 < window → 0 < Sub (Add (limiter.windowStart now window) window) now.
Proof.
  intros Hw. unfold limiter.windowStart, Truncate, Add, Sub.
  destruct (Z.leb_spec window 0); [lia|].
  pose proof (Z.mod_pos_bound now window ltac:(lia)).
  unfold MinInt64, MaxInt64.
  destruct (Z.ltb_spec (now - now mod window + window - now) (- 2 ^ 63)); [lia|].
  destruct (Z.ltb_spec (2 ^ 63 - 1) (now - now mod window + window - now)); lia.
Qed.

Section fixedWindow_mock.

Variables (cl : gmap string limiter.ClientLimit) (dl : limiter.ClientLimit).
Variable clientID : string.

Let mk (m : limiter.mockRedis) : limiter.RateLimiter limiter.mockRedis :=
  {| limiter.redis := m; limiter.clientLimits := cl; limiter.defaultLimit := dl |}.
Let lim := limiter.GetLimit (mk ∅) clientID.

Hypothesis Hreq : 0 < limiter.Requests lim <= MaxInt64.
Hypothesis Hwin : 0 < limiter.Window lim.

(* A call that finds the key with count c >= 1 and a time to live that has
   not run out. *)
Lemma fixedWindow_Allow_mock_live (m : limiter.mockRedis) now t_incr t_exp c T :
  m !! limiter.generateKey clientID now (limiter.Window lim)
    = Some {| limiter.count := c; limiter.ttl := T |} →
  1 <= c < MaxInt64 → t_incr <= T →
  limiter.fixedWindow_Allow (mk m) now t_incr t_exp clientID =
    (mk (<[limiter.generateKey clientID now (limiter.Window lim) :=
             {| limiter.count := c + 1; limiter.ttl := T |}]> m),
     (c + 1 <=? limiter.Requests lim,
      Z.max 0 (limiter.Requests lim - (c + 1)),
      Sub (Add (limiter.windowStart now (limiter.Window lim)) (limiter.Window lim)) now,
      None)).
Proof.
  intros Hk Hc HT. unfold limiter.fixedWindow_Allow.
  change (limiter.GetLimit (mk m) clientID) with lim.
  destruct (Z.leb_spec (limiter.Requests lim) 0); [lia|].
  destruct (Z.leb_spec (limiter.Window lim) 0); [lia|].
  cbn [orb limiter.redis mk limiter.Incr limiter.mockRedis_RedisClient].
  rewrite (mockIncr_live m t_incr _ c T Hk HT).
  rewrite add64_succ by (unfold MinInt64, MaxInt64 in *; lia).
  destruct (Z.eqb_spec (c + 1) 1); [lia|].
  rewrite remaining_clamped by (unfold MaxInt64 in *; lia). done.
Qed.

(* The first call for a key the backend does not hold. *)
Lemma fixedWindow_Allow_mock_fresh (m : limiter.mockRedis) now t_incr t_exp :
  m !! limiter.generateKey clientID now (limiter.Window lim) = None →
  limiter.fixedWindow_Allow (mk m) now t_incr t_exp clientID =
    (mk (<[limiter.generateKey clientID now (limiter.Window lim) :=
             {| limiter.count := 1; limiter.ttl := t_exp + limiter.Window lim |}]> m),
     (true,
      Z.max 0 (limiter.Requests lim - 1),
      Sub (Add (limiter.windowStart now (limiter.Window lim)) (limiter.Window lim)) now,
      None)).
Proof.
  intros Hk. unfold limiter.fixedWindow_Allow.
  change (limiter.GetLimit (mk m) clientID) with lim.
  destruct (Z.leb_spec (limiter.Requests lim) 0); [lia|].
  destruct (Z.leb_spec (limiter.Window lim) 0); [lia|].
  cbn [orb limiter.redis mk limiter.Incr limiter.Expire limiter.mockRedis_RedisClient].
  rewrite (mockIncr_fresh m t_incr _ Hk). cbn [Z.eqb Pos.eqb].
  rewrite (mockExpire_present _ t_exp _ _ _ (lookup_insert_eq _ _ _)).
  rewrite insert_insert_eq. cbn [limiter.count].
  rewrite remaining_clamped by (unfold MaxInt64 in *; lia).
  assert ((1 <=? limiter.Requests lim) = true) as -> by (apply Z.leb_le; lia).
  done.
Qed.

Lemma fixedWindow_AllowSeq_cons (m : limiter.mockRedis) now t_incr t_exp calls :
  (fixedWindow_AllowSeq (mk m) clientID ((now, t_incr, t_exp) :: calls)).2 =
    (limiter.fixedWindow_Allow (mk m) now t_incr t_exp clientID).2
    :: (fixedWindow_AllowSeq
          (limiter.fixedWindow_Allow (mk m) now t_incr t_exp clientID).1
          clientID calls).2.
Proof.
  simpl. destruct (limiter.fixedWindow_Allow (mk m) now t_incr t_exp clientID)
    as [rl1 d]. simpl.
  by destruct (fixedWindow_AllowSeq rl1 clientID calls).
Qed.

Lemma fixedWindow_AllowSeq_live ws T calls : ∀ (m : limiter.mockRedis) c,
  Forall (λ call : Time * Time * Time,
            limiter.windowStart call.1.1 (limiter.Window lim) = ws
            ∧ call.1.2 <= T) calls →
  (∀ now, limiter.windowStart now (limiter.Window lim) = ws →
     m !! limiter.generateKey clientID now (limiter.Window lim)
       = Some {| limiter.count := c; limiter.ttl := T |}) →
  1 <= c → c + Z.of_nat (length calls) <= MaxInt64 →
  ∀ i d, (fixedWindow_AllowSeq (mk m) clientID calls).2 !! i = Some d →
    err d = None
    ∧ (allowed d = true ↔ c + Z.of_nat i + 1 <= limiter.Requests lim)
    ∧ remaining d = Z.max 0 (limiter.Requests lim - (c + Z.of_nat i + 1))
    ∧ 0 < resetAt d.
Proof.
  induction calls as [|[[now t_incr] t_exp] calls IH]; intros m c Hcalls Hm Hc Hlen i d;
    [done|].
  apply Forall_cons in Hcalls as [[Hws HT] Hcalls]. simpl in Hws, HT.
  cbn [length] in Hlen. rewrite Nat2Z.inj_succ in Hlen.
  rewrite fixedWindow_AllowSeq_cons.
  rewrite (fixedWindow_Allow_mock_live m now t_incr t_exp c T (Hm now Hws))
    by (unfold MaxInt64 in *; lia).
  cbn [fst snd]. destruct i as [|i].
  - intros [= <-]. unfold err, allowed, remaining, resetAt. simpl.
    rewrite Z.leb_le. repeat split; try lia.
    by apply resetIn_pos.
  - intros Hd. cbn [lookup list_lookup] in Hd.
    destruct (IH (<[limiter.generateKey clientID now (limiter.Window lim) :=
                      {| limiter.count := c + 1; limiter.ttl := T |}]> m)
                (c + 1) Hcalls) with (i := i) (d := d) as (He & Ha & Hr & Ht);
      [ | lia | lia | exact Hd | ].
    + intros now' Hws'.
      rewrite <- (generateKey_same_window clientID now now') by congruence.
      apply lookup_insert_eq.
    + split; [done|]. split; [rewrite Ha; lia|]. split; [|done].
      rewrite Hr. f_equal. lia.
Qed.

End fixedWindow_mock.

(** X13.  The epoch-truncated engine over mockRedis, one window.  Take a valid
    limit, a first call whose key the backend does not hold, and further
    calls whose clock readings have the same window boundary and whose INCR
    reaches the backend no later than the time to live set by the first call
    (its EXPIRE reading plus the window).  Then every call succeeds, the n-th
    call is allowed exactly when n <= requests, its remaining is
    max(0, requests - n), and its resetIn is positive. *)
Theorem fixedWindow_counts_per_window (cl : gmap string limiter.ClientLimit)
  (dl : limiter.ClientLimit) clientID (m : limiter.mockRedis) now t_incr t_exp rest :
  let rl := {| limiter.redis := m; limiter.clientLimits := cl;
               limiter.defaultLimit := dl |} in
  let lim := limiter.GetLimit rl clientID in
  0 < limiter.Requests lim <= MaxInt64 → 0 < limiter.Window lim →
  m !! limiter.generateKey clientID now (limiter.Window lim) = None →
  Forall (λ call : Time * Time * Time,
            limiter.windowStart call.1.1 (limiter.Window lim)
              = limiter.windowStart now (limiter.Window lim)
            ∧ call.1.2 <= t_exp + limiter.Window lim) rest →
  Z.of_nat (S (length rest)) <= MaxInt64 →
  ∀ i d,
    (fixedWindow_AllowSeq rl clientID ((now, t_incr, t_exp) :: rest)).2 !! i = Some d →
    err d = None
    ∧ (allowed d = true ↔ Z.of_nat i + 1 <= limiter.Requests lim)
    ∧ remaining d = Z.max 0 (limiter.Requests lim - (Z.of_nat i + 1))
    ∧ 0 < resetAt d.
Proof.
  intros rl lim. subst lim rl.
  change (limiter.GetLimit
            {| limiter.redis := m; limiter.clientLimits := cl;
               limiter.defaultLimit := dl |} clientID)
    with (limiter.GetLimit
            {| limiter.redis := (∅ : limiter.mockRedis); limiter.clientLimits := cl;
               limiter.defaultLimit := dl |} clientID).
  set (lim := limiter.GetLimit _ clientID).
  intros Hreq Hwin Hk Hrest Hlen i d.
  rewrite (fixedWindow_AllowSeq_cons cl dl clientID m).
  rewrite (fixedWindow_Allow_mock_fresh cl dl clientID Hreq Hwin m now t_incr t_exp Hk).
  cbn [fst snd]. destruct i as [|i].
  - intros [= <-]. unfold err, allowed, remaining, resetAt. simpl.
    split; [done|]. split; [split; [lia | done]|]. split; [done|].
    by apply resetIn_pos.
  - intros Hd. cbn [lookup list_lookup] in Hd.
    rewrite Nat2Z.inj_succ.
    destruct (fixedWindow_AllowSeq_live cl dl clientID Hreq Hwin
                (limiter.windowStart now (limiter.Window lim))
                (t_exp + limiter.Window lim) rest
                (<[limiter.generateKey clientID now (limiter.Window lim) :=
                     {| limiter.count := 1;
                        limiter.ttl := t_exp + limiter.Window lim |}]> m)
                1 Hrest) with (i := i) (d := d) as (He & Ha & Hr & Ht).
    + intros now' Hws'.
      rewrite <- (generateKey_same_window clientID now now') by (symmetry; exact Hws').
      apply lookup_insert_eq.
    + lia.
    + cbn [length] in Hlen. lia.
    + exact Hd.
    + replace (Z.succ (Z.of_nat i) + 1) with (1 + Z.of_nat i + 1) by lia.
      exact (conj He (conj Ha (conj Hr Ht))).
Qed.

Lemma fixedWindow_counts_per_window_witness :
  let d : bool * Z * Duration * error := (false, 0, 999999970, None) in
  err d = None
  ∧ (allowed d = true ↔ Z.of_nat 2 + 1 <= 2)
  ∧ remaining d = Z.max 0 (2 - (Z.of_nat 2 + 1))
  ∧ 0 < resetAt d.
Proof.
  cbv zeta.
  refine (fixedWindow_counts_per_window ∅
            {| limiter.Requests := 2; limiter.Window := Second |} "c1"
            limiter.newMockRedis 10 11 12 [(20, 21, 22); (30, 31, 32)]
            _ _ _ _ _ 2%nat (false, 0, 999999970, None) _).
  - vm_compute. split; [reflexivity | discriminate].
  - reflexivity.
  - reflexivity.
  - repeat constructor; vm_compute; discriminate.
  - vm_compute. discriminate.
  - vm_compute. reflexivity.
Defined.

(** * Reading the time to live of a key of mockRedis *)

Lemma mockTTL_present (m : limiter.mockRedis) now key c T :
  m !! key = Some {| limiter.count := c; limiter.ttl := T |} →
  limiter.mockTTL m now key = (m, (if IsZero T then -1 else Sub T now, None)).
Proof.
  intros Hk. unfold limiter.mockTTL, limiter.mockLoad. rewrite Hk. simpl.
  by destruct (IsZero T).
Qed.

(** * The HTTP middleware *)

Section Middleware.

Import config internal_limiter middleware.

Context {S : Type} `{!Store S}.
Variable next : ResponseWriter → Request → ResponseWriter.

Lemma Handler_error (l : Limiter S) now now_s w r s' counter expiry e :
  Increment (store l) now_s (keyForClient (getClientID r))
    (Window (effective l (getClientID r))) = (s', (counter, expiry, Some e)) →
  Handler next l now now_s w r =
    (NewLimiter s' (configs l),
     Error w "Internal Server Error" StatusInternalServerError).
Proof.
  intros HI. unfold Handler.
  by rewrite (Allow_store_error l now now_s (getClientID r) s' counter expiry e HI).
Qed.

Lemma Handler_success (l : Limiter S) now now_s w r s' counter expiry :
  Increment (store l) now_s (keyForClient (getClientID r))
    (Window (effective l (getClientID r))) = (s', (counter, expiry, None)) →
  Handler next l now now_s w r =
    let d := decision (effective l (getClientID r)) now counter expiry in
    let w' := setRateLimitHeaders w (getClientID r) (remaining d) (resetAt d) in
    (NewLimiter s' (configs l),
     if negb (allowed d) then sendRateLimitError w' (remaining d) (resetAt d)
     else next w' r).
Proof.
  intros HI. unfold Handler.
  rewrite (Allow_success l now now_s (getClientID r) s' counter expiry HI).
  unfold decision, allowed, remaining, resetAt. simpl.
  by destruct (counter <=? Limit (effective l (getClientID r))).
Qed.

End Middleware.

Lemma setRateLimitHeaders_lookup w clientID rem rst :
  middleware.Header (middleware.setRateLimitHeaders w clientID rem rst)
    !! "X-RateLimit-Limit"%string = Some (pretty (middleware.getLimit clientID))
  ∧ middleware.Header (middleware.setRateLimitHeaders w clientID rem rst)
      !! "X-RateLimit-Remaining"%string = Some (pretty rem)
  ∧ middleware.Header (middleware.setRateLimitHeaders w clientID rem rst)
      !! "X-RateLimit-Reset"%string
    = (if IsZero rst then middleware.Header w !! "X-RateLimit-Reset"%string
       else Some (pretty (Unix rst)))
  ∧ middleware.Code (middleware.setRateLimitHeaders w clientID rem rst)
    = middleware.Code w.
Proof.
  unfold middleware.setRateLimitHeaders, middleware.SetHeader.
  destruct (IsZero rst); simpl.
  - rewrite lookup_insert_ne by done. rewrite !lookup_insert_eq.
    by rewrite !lookup_insert_ne by done.
  - rewrite lookup_insert_eq. rewrite lookup_insert_ne by done.
    rewrite lookup_insert_ne by done. rewrite lookup_insert_eq.
    rewrite lookup_insert_ne by done. by rewrite lookup_insert_eq.
Qed.

(** X15.  A storage error becomes a 500, whatever the limiter decided.  When the
    store's Increment fails, the middleware answers with status 500 and the
    text "Internal Server Error", does not run the next handler (the answer
    is the same for every next handler) and sets none of the X-RateLimit
    headers, although [Limiter.Allow] reported allowed = true. *)
Theorem Handler_storage_error_is_500 (S : Type) (St : internal_limiter.Store S)
  (next next' : middleware.ResponseWriter → middleware.Request → middleware.ResponseWriter)
  (l : internal_limiter.Limiter S) now now_s w r s' counter expiry e :
  internal_limiter.Increment (internal_limiter.store l) now_s
    (internal_limiter.keyForClient (middleware.getClientID r))
    (config.Window (effective l (middleware.getClientID r)))
    = (s', (counter, expiry, Some e)) →
  allowed (internal_limiter.Allow l now now_s (middleware.getClientID r)).2 = true
  ∧ middleware.Code (middleware.Handler next l now now_s w r).2 = Some 500
  ∧ middleware.Written (middleware.Handler next l now now_s w r).2
    = middleware.ErrorText "Internal Server Error"
  ∧ middleware.Handler next' l now now_s w r = middleware.Handler next l now now_s w r
  ∧ (∀ h, h ∈ ["X-RateLimit-Limit"; "X-RateLimit-Remaining"; "X-RateLimit-Reset"]%string →
       middleware.Header (middleware.Handler next l now now_s w r).2 !! h
       = middleware.Header w !! h).
Proof.
  intros HI.
  rewrite (Allow_store_error l now now_s _ s' counter expiry e HI).
  rewrite !(Handler_error _ l now now_s w r s' counter expiry e HI).
  split; [done|]. split; [done|]. split; [done|]. split; [done|].
  intros h Hh. simpl.
  rewrite !elem_of_cons in Hh. rewrite elem_of_nil in Hh.
  destruct Hh as [-> | [-> | [-> | []]]];
    rewrite !lookup_insert_ne by done; by rewrite lookup_delete_ne.
Qed.

Lemma Handler_storage_error_is_500_witness :
  let l := internal_limiter.NewLimiter internal_limiter.MockStoreError config.Clients in
  let r := {| middleware.XClientID := "client-1" |} in
  let next := λ (w : middleware.ResponseWriter) (_ : middleware.Request), w in
  middleware.Code (middleware.Handler next l 0 0 middleware.NewRecorder r).2 = Some 500.
Proof.
  cbv zeta.
  apply (Handler_storage_error_is_500 _ _
           (λ (w : middleware.ResponseWriter) (_ : middleware.Request), w)
           (λ (w : middleware.ResponseWriter) (_ : middleware.Request), w)
           (internal_limiter.NewLimiter internal_limiter.MockStoreError config.Clients)
           0 0 middleware.NewRecorder {| middleware.XClientID := "client-1" |}
           internal_limiter.MockStoreError 0 zeroTime "mock increment error").
  reflexivity.
Defined.

(** X16.  Forward or 429.  When the store's Increment succeeds with a count, the
    middleware first sets X-RateLimit-Limit (from config.Clients, else the
    default limit), X-RateLimit-Remaining (the decision's remaining) and,
    unless the decision's resetAt is the zero time, X-RateLimit-Reset (its
    Unix seconds).  If the count is within the effective limit, the answer is
    whatever the next handler makes of that writer; otherwise the next
    handler does not run and the answer is status 429 with the JSON error
    carrying the same remaining. *)
Theorem Handler_forwards_or_429 (S : Type) (St : internal_limiter.Store S)
  (next : middleware.ResponseWriter → middleware.Request → middleware.ResponseWriter)
  (l : internal_limiter.Limiter S) now now_s w r s' counter expiry :
  internal_limiter.Increment (internal_limiter.store l) now_s
    (internal_limiter.keyForClient (middleware.getClientID r))
    (config.Window (effective l (middleware.getClientID r)))
    = (s', (counter, expiry, None)) →
  ∃ w',
    middleware.Header w' !! "X-RateLimit-Limit"%string
      = Some (pretty (middleware.getLimit (middleware.getClientID r)))
    ∧ middleware.Header w' !! "X-RateLimit-Remaining"%string
      = Some (pretty (remaining
                        (internal_limiter.Allow l now now_s (middleware.getClientID r)).2))
    ∧ middleware.Header w' !! "X-RateLimit-Reset"%string
      = (if IsZero (resetAt (internal_limiter.Allow l now now_s
                               (middleware.getClientID r)).2)
         then middleware.Header w !! "X-RateLimit-Reset"%string
         else Some (pretty (Unix (resetAt (internal_limiter.Allow l now now_s
                                             (middleware.getClientID r)).2))))
    ∧ middleware.Code w' = middleware.Code w
    ∧ (counter <= config.Limit (effective l (middleware.getClientID r)) →
       (middleware.Handler next l now now_s w r).2 = next w' r)
    ∧ (config.Limit (effective l (middleware.getClientID r)) < counter →
       middleware.Code (middleware.Handler next l now now_s w r).2 = Some 429
       ∧ middleware.Written (middleware.Handler next l now now_s w r).2
         = middleware.RateLimitExceeded
             (remaining (internal_limiter.Allow l now now_s (middleware.getClientID r)).2)
             (if IsZero (resetAt (internal_limiter.Allow l now now_s
                                    (middleware.getClientID r)).2)
              then None
              else Some (Unix (resetAt (internal_limiter.Allow l now now_s
                                          (middleware.getClientID r)).2)))
       ∧ middleware.Header (middleware.Handler next l now now_s w r).2
           !! "X-RateLimit-Remaining"%string
         = middleware.Header w' !! "X-RateLimit-Remaining"%string).
Proof.
  intros HI.
  rewrite (Allow_success l now now_s _ s' counter expiry HI).
  rewrite (Handler_success next l now now_s w r s' counter expiry HI).
  cbv zeta. cbn [snd].
  set (d := decision (effective l (middleware.getClientID r)) now counter expiry).
  exists (middleware.setRateLimitHeaders w (middleware.getClientID r)
            (remaining d) (resetAt d)).
  destruct (setRateLimitHeaders_lookup w (middleware.getClientID r)
              (remaining d) (resetAt d)) as (HL & HR & HT & HC).
  split; [done|]. split; [done|]. split; [done|]. split; [done|].
  assert (allowed d = (counter <=? config.Limit (effective l (middleware.getClientID r))))
    as Ha by done.
  split.
  - intros Hle. apply Z.leb_le in Hle. by rewrite Ha, Hle.
  - intros Hgt. apply Z.leb_gt in Hgt. rewrite Ha, Hgt. simpl.
    split; [done|]. split; [by destruct (IsZero (resetAt d))|].
    by rewrite lookup_insert_ne by done.
Qed.

Lemma Handler_forwards_or_429_witness :
  let l := internal_limiter.NewLimiter
             {[ "rate:client-2" := Some {| memory.Count := 2; memory.Expiry := 60 * Second |} ]}
             config.Clients in
  let r := {| middleware.XClientID := "client-2" |} in
  let next := λ (w : middleware.ResponseWriter) (_ : middleware.Request), w in
  ∃ w',
    middleware.Header w' !! "X-RateLimit-Limit"%string
      = Some (pretty (middleware.getLimit (middleware.getClientID r)))
    ∧ middleware.Header w' !! "X-RateLimit-Remaining"%string
      = Some (pretty (remaining
                        (internal_limiter.Allow l 1 1 (middleware.getClientID r)).2))
    ∧ middleware.Header w' !! "X-RateLimit-Reset"%string
      = (if IsZero (resetAt (internal_limiter.Allow l 1 1 (middleware.getClientID r)).2)
         then middleware.Header middleware.NewRecorder !! "X-RateLimit-Reset"%string
         else Some (pretty (Unix (resetAt (internal_limiter.Allow l 1 1
                                             (middleware.getClientID r)).2))))
    ∧ middleware.Code w' = middleware.Code middleware.NewRecorder
    ∧ (3 <= config.Limit (effective l (middleware.getClientID r)) →
       (middleware.Handler next l 1 1 middleware.NewRecorder r).2 = next w' r)
    ∧ (config.Limit (effective l (middleware.getClientID r)) < 3 →
       middleware.Code (middleware.Handler next l 1 1 middleware.NewRecorder r).2 = Some 429
       ∧ middleware.Written (middleware.Handler next l 1 1 middleware.NewRecorder r).2
         = middleware.RateLimitExceeded
             (remaining (internal_limiter.Allow l 1 1 (middleware.getClientID r)).2)
             (if IsZero (resetAt (internal_limiter.Allow l 1 1 (middleware.getClientID r)).2)
              then None
              else Some (Unix (resetAt (internal_limiter.Allow l 1 1
                                          (middleware.getClientID r)).2)))
       ∧ middleware.Header (middleware.Handler next l 1 1 middleware.NewRecorder r).2
           !! "X-RateLimit-Remaining"%string
         = middleware.Header w' !! "X-RateLimit-Remaining"%string).
Proof.
  cbv zeta.
  apply (Handler_forwards_or_429 _ _
           (λ (w : middleware.ResponseWriter) (_ : middleware.Request), w)
           (internal_limiter.NewLimiter
              {[ "rate:client-2" := Some {| memory.Count := 2; memory.Expiry := 60 * Second |} ]}
              config.Clients)
           1 1 middleware.NewRecorder {| middleware.XClientID := "client-2" |}
           (<["rate:client-2" := Some {| memory.Count := 3; memory.Expiry := 60 * Second |}]>
              {[ "rate:client-2" := Some {| memory.Count := 2; memory.Expiry := 60 * Second |} ]})
           3 (60 * Second)).
  reflexivity.
Defined.

(** * The in-process FixedWindowLimiter (package ratelimiter) *)

Lemma Sub_self (t : Z) : Sub t t = 0.
Proof. unfold Sub. rewrite Z.sub_diag. reflexivity. Qed.

Lemma Sub_mono (t t' u : Z) : t <= t' → Sub t u <= Sub t' u.
Proof.
  intros Ht. unfold Sub, MinInt64, MaxInt64.
  destruct (Z.ltb_spec (t - u) (- 2 ^ 63)), (Z.ltb_spec (t' - u) (- 2 ^ 63));
    try destruct (Z.ltb_spec (2 ^ 63 - 1) (t - u));
    try destruct (Z.ltb_spec (2 ^ 63 - 1) (t' - u)); lia.
Qed.

(* AllowN in terms of the quota used: the decision and the window it
   leaves. *)
Lemma AllowN_used (l : ratelimiter.FixedWindowLimiter) now key n :
  ∃ start,
    ratelimiter.AllowN l now key n =
      ({| ratelimiter.config := ratelimiter.config l;
          ratelimiter.windows :=
            <[key := {| ratelimiter.count :=
                          if add64 (used l now key) n
                               <=? ratelimiter.Limit (ratelimiter.config l)
                          then add64 (used l now key) n else used l now key;
                        ratelimiter.startTime := start |}]>
              (ratelimiter.windows l) |},
       (add64 (used l now key) n <=? ratelimiter.Limit (ratelimiter.config l), None))
    ∧ (0 < ratelimiter.Window (ratelimiter.config l) →
       Sub now start < ratelimiter.Window (ratelimiter.config l)).
Proof.
  unfold ratelimiter.AllowN, used.
  destruct (ratelimiter.windows l !! key) as [[c st]|]; simpl.
  - destruct (Z.leb_spec (ratelimiter.Window (ratelimiter.config l)) (Sub now st));
      simpl.
    + exists now. split; [|rewrite Sub_self; lia].
      by destruct (add64 0 n <=? ratelimiter.Limit (ratelimiter.config l)).
    + exists st. split; [|done].
      by destruct (add64 c n <=? ratelimiter.Limit (ratelimiter.config l)).
  - destruct (Z.leb_spec (ratelimiter.Window (ratelimiter.config l)) (Sub now now));
      simpl; (exists now; split; [|rewrite Sub_self; lia]);
      by destruct (add64 0 n <=? ratelimiter.Limit (ratelimiter.config l)).
Qed.

(** X17.  A denied request consumes no quota.  For a window length > 0 and a
    request of n >= 0 units that does not overflow int64, [AllowN] allows the
    request exactly when the quota used in the current window plus n is
    within the limit; the quota used afterwards is the old one plus n when
    allowed and the old one when denied.  The error is nil. *)
Theorem AllowN_consumes_iff_allowed (l : ratelimiter.FixedWindowLimiter) now key n :
  0 < ratelimiter.Window (ratelimiter.config l) →
  0 <= n → MinInt64 <= used l now key → used l now key + n <= MaxInt64 →
  (ratelimiter.AllowN l now key n).2
    = (used l now key + n <=? ratelimiter.Limit (ratelimiter.config l), None)
  ∧ used (ratelimiter.AllowN l now key n).1 now key
    = (if used l now key + n <=? ratelimiter.Limit (ratelimiter.config l)
       then used l now key + n else used l now key).
Proof.
  intros HW Hn Hmin Hmax.
  destruct (AllowN_used l now key n) as (start & -> & Hstart).
  specialize (Hstart HW).
  unfold add64. rewrite wrap64_id by lia. split; [done|].
  unfold used at 1. cbn [fst ratelimiter.windows ratelimiter.config].
  rewrite lookup_insert_eq. cbn [ratelimiter.startTime ratelimiter.count].
  destruct (Z.leb_spec (ratelimiter.Window (ratelimiter.config l)) (Sub now start));
    [lia | done].
Qed.

Lemma AllowN_consumes_iff_allowed_witness :
  let l := {| ratelimiter.config :=
                {| ratelimiter.Limit := 3; ratelimiter.Window := Second;
                   ratelimiter.BurstSize := 0 |};
              ratelimiter.windows :=
                {[ "k" := {| ratelimiter.count := 2; ratelimiter.startTime := 0 |} ]} |} in
  (ratelimiter.AllowN l 5 "k" 2).2
    = (used l 5 "k" + 2 <=? ratelimiter.Limit (ratelimiter.config l), None)
  ∧ used (ratelimiter.AllowN l 5 "k" 2).1 5 "k"
    = (if used l 5 "k" + 2 <=? ratelimiter.Limit (ratelimiter.config l)
       then used l 5 "k" + 2 else used l 5 "k").
Proof.
  cbv zeta.
  apply (AllowN_consumes_iff_allowed
           {| ratelimiter.config :=
                {| ratelimiter.Limit := 3; ratelimiter.Window := Second;
                   ratelimiter.BurstSize := 0 |};
              ratelimiter.windows :=
                {[ "k" := {| ratelimiter.count := 2; ratelimiter.startTime := 0 |} ]} |}
           5 "k" 2).
  - reflexivity.
  - discriminate.
  - vm_compute. discriminate.
  - vm_compute. discriminate.
Defined.

(** X18.  The quota is never exceeded.  If every window's count lies between 0
    and the limit, it still does after [AllowN] of n >= 0 units, provided
    limit + n fits int64; the new limiter of NewFixedWindowLimiter, for a
    limit >= 0, starts in such a state.  So however requests are interleaved,
    no window ever counts more than the limit. *)
Theorem AllowN_within_quota (l : ratelimiter.FixedWindowLimiter) now key n :
  0 <= n → ratelimiter.Limit (ratelimiter.config l) + n <= MaxInt64 →
  0 <= ratelimiter.Limit (ratelimiter.config l) →
  within_quota l →
  within_quota (ratelimiter.AllowN l now key n).1
  ∧ within_quota (ratelimiter.NewFixedWindowLimiter (ratelimiter.config l)).
Proof.
  intros Hn Hmax Hlim Hq. split; [|intros k wd Hk; simpl in Hk; by rewrite lookup_empty in Hk].
  assert (0 <= used l now key <= ratelimiter.Limit (ratelimiter.config l)) as Hu.
  { unfold used. destruct (ratelimiter.windows l !! key) as [wd|] eqn:Hk; [|lia].
    destruct (_ <=? _); [lia|]. by apply (Hq key). }
  destruct (AllowN_used l now key n) as (start & -> & _).
  intros k wd. cbn [fst ratelimiter.windows ratelimiter.config].
  rewrite lookup_insert. case_decide as Hkey; [|apply Hq].
  intros [= <-]. cbn [ratelimiter.count].
  unfold add64. rewrite wrap64_id by (unfold MinInt64, MaxInt64 in *; lia).
  destruct (Z.leb_spec (used l now key + n) (ratelimiter.Limit (ratelimiter.config l)));
    lia.
Qed.

Lemma AllowN_within_quota_witness :
  let l := ratelimiter.NewFixedWindowLimiter
             {| ratelimiter.Limit := 3; ratelimiter.Window := Second;
                ratelimiter.BurstSize := 0 |} in
  within_quota (ratelimiter.AllowN l 5 "k" 2).1
  ∧ within_quota (ratelimiter.NewFixedWindowLimiter (ratelimiter.config l)).
Proof.
  cbv zeta.
  apply (AllowN_within_quota
           (ratelimiter.NewFixedWindowLimiter
              {| ratelimiter.Limit := 3; ratelimiter.Window := Second;
                 ratelimiter.BurstSize := 0 |}) 5 "k" 2).
  - discriminate.
  - vm_compute. discriminate.
  - discriminate.
  - intros k wd Hk. simpl in Hk. by rewrite lookup_empty in Hk.
Defined.

(** X19.  Reset forgets the key and nothing else.  After [Reset] of a key its used
    quota is 0 at every instant, the next [Allow] for it is decided as for a
    key never seen (allowed exactly when the limit is at least 1), the
    windows of all other keys are as before, and the error is nil. *)
Theorem Reset_clears_key (l : ratelimiter.FixedWindowLimiter) key now key' :
  (ratelimiter.Reset l key).2 = None
  ∧ used (ratelimiter.Reset l key).1 now key = 0
  ∧ (ratelimiter.Allow (ratelimiter.Reset l key).1 now key).2
    = (1 <=? ratelimiter.Limit (ratelimiter.config l), None)
  ∧ (key' ≠ key →
     ratelimiter.windows (ratelimiter.Reset l key).1 !! key'
       = ratelimiter.windows l !! key').
Proof.
  split; [done|]. split; [|split].
  - unfold used, ratelimiter.Reset. simpl. by rewrite lookup_delete_eq.
  - unfold ratelimiter.Allow, ratelimiter.AllowN, ratelimiter.Reset. simpl.
    rewrite lookup_delete_eq. cbn [ratelimiter.startTime].
    destruct (ratelimiter.Window (ratelimiter.config l) <=? Sub now now);
      cbn [ratelimiter.count]; change (add64 0 1) with 1;
      by destruct (1 <=? ratelimiter.Limit (ratelimiter.config l)).
  - intros Hne. unfold ratelimiter.Reset. simpl. by rewrite lookup_delete_ne.
Qed.

Lemma Reset_clears_key_witness :
  let l := {| ratelimiter.config :=
                {| ratelimiter.Limit := 3; ratelimiter.Window := Second;
                   ratelimiter.BurstSize := 0 |};
              ratelimiter.windows :=
                {[ "k" := {| ratelimiter.count := 3; ratelimiter.startTime := 0 |} ]} |} in
  ratelimiter.windows (ratelimiter.Reset l "other").1 !! "k"
    = ratelimiter.windows l !! "k".
Proof.
  cbv zeta.
  apply (Reset_clears_key
           {| ratelimiter.config :=
                {| ratelimiter.Limit := 3; ratelimiter.Window := Second;
                   ratelimiter.BurstSize := 0 |};
              ratelimiter.windows :=
                {[ "k" := {| ratelimiter.count := 3; ratelimiter.startTime := 0 |} ]} |}
           "other" 0 "k").
  discriminate.
Defined.

Lemma cleanupExpired_lookup (l : ratelimiter.FixedWindowLimiter) t key :
  ratelimiter.windows (ratelimiter.cleanupExpired l t) !! key =
    match ratelimiter.windows l !! key with
    | Some wd =>
        if wrap64 (ratelimiter.Window (ratelimiter.config l) * 2)
             <=? Sub t (ratelimiter.startTime wd)
        then None else Some wd
    | None => None
    end.
Proof.
  unfold ratelimiter.cleanupExpired. simpl.
  destruct (ratelimiter.windows l !! key) as [wd|] eqn:Hk.
  - destruct (_ <=? _) eqn:Hold.
    + apply map_lookup_filter_None. right. intros wd' Hwd'.
      rewrite Hk in Hwd'. injection Hwd' as <-. simpl. by rewrite Hold.
    + apply map_lookup_filter_Some. split; [done|]. simpl. by rewrite Hold.
  - apply map_lookup_filter_None. by left.
Qed.

(** X20.  The cleanup tick is invisible to later callers.  For a window length
    >= 0 whose double fits int64 and a clock reading not earlier than the
    tick's, [AllowN] decides the same and leaves the same window for the key,
    and [GetResult] reports the same, on the cleaned limiter as on the one
    the tick was applied to: the tick only removes windows that have
    elapsed. *)
Theorem cleanupExpired_transparent (l : ratelimiter.FixedWindowLimiter) t now key n :
  0 <= ratelimiter.Window (ratelimiter.config l) →
  ratelimiter.Window (ratelimiter.config l) * 2 <= MaxInt64 →
  t <= now →
  (ratelimiter.AllowN (ratelimiter.cleanupExpired l t) now key n).2
    = (ratelimiter.AllowN l now key n).2
  ∧ ratelimiter.windows (ratelimiter.AllowN (ratelimiter.cleanupExpired l t) now key n).1
      !! key
    = ratelimiter.windows (ratelimiter.AllowN l now key n).1 !! key
  ∧ ratelimiter.GetResult (ratelimiter.cleanupExpired l t) now key
    = ratelimiter.GetResult l now key.
Proof.
  intros HW Hdouble Ht.
  pose proof (cleanupExpired_lookup l t key) as Hlook.
  unfold ratelimiter.AllowN, ratelimiter.GetResult.
  change (ratelimiter.config (ratelimiter.cleanupExpired l t))
    with (ratelimiter.config l).
  rewrite Hlook. clear Hlook.
  destruct (ratelimiter.windows l !! key) as [[c st]|].
  - cbn [ratelimiter.startTime ratelimiter.count].
    rewrite wrap64_id by (unfold MinInt64, MaxInt64 in *; lia).
    destruct (Z.leb_spec (ratelimiter.Window (ratelimiter.config l) * 2) (Sub t st))
      as [Hold|Hyoung].
    + pose proof (Sub_mono t now st Ht).
      assert ((ratelimiter.Window (ratelimiter.config l) <=? Sub now st) = true) as ->
        by (apply Z.leb_le; lia).
      cbn [ratelimiter.startTime ratelimiter.count].
      destruct (ratelimiter.Window (ratelimiter.config l) <=? Sub now now);
        cbn [ratelimiter.startTime ratelimiter.count];
        destruct (add64 0 n <=? ratelimiter.Limit (ratelimiter.config l));
        cbn [fst snd ratelimiter.windows]; by rewrite !lookup_insert_eq.
    + cbn [ratelimiter.startTime ratelimiter.count].
      destruct (ratelimiter.Window (ratelimiter.config l) <=? Sub now st);
        cbn [ratelimiter.startTime ratelimiter.count];
        destruct (add64 _ n <=? ratelimiter.Limit (ratelimiter.config l));
        cbn [fst snd ratelimiter.windows]; by rewrite !lookup_insert_eq.
  - cbn [ratelimiter.startTime ratelimiter.count].
    destruct (ratelimiter.Window (ratelimiter.config l) <=? Sub now now);
      cbn [ratelimiter.startTime ratelimiter.count];
      destruct (add64 0 n <=? ratelimiter.Limit (ratelimiter.config l));
      cbn [fst snd ratelimiter.windows]; by rewrite !lookup_insert_eq.
Qed.

Lemma cleanupExpired_transparent_witness :
  let l := {| ratelimiter.config :=
                {| ratelimiter.Limit := 3; ratelimiter.Window := 10;
                   ratelimiter.BurstSize := 0 |};
              ratelimiter.windows :=
                {[ "k" := {| ratelimiter.count := 3; ratelimiter.startTime := 0 |} ]} |} in
  (ratelimiter.AllowN (ratelimiter.cleanupExpired l 20) 25 "k" 1).2
    = (ratelimiter.AllowN l 25 "k" 1).2
  ∧ ratelimiter.windows (ratelimiter.AllowN (ratelimiter.cleanupExpired l 20) 25 "k" 1).1
      !! "k"
    = ratelimiter.windows (ratelimiter.AllowN l 25 "k" 1).1 !! "k"
  ∧ ratelimiter.GetResult (ratelimiter.cleanupExpired l 20) 25 "k"
    = ratelimiter.GetResult l 25 "k".
Proof.
  cbv zeta.
  apply (cleanupExpired_transparent
           {| ratelimiter.config :=
                {| ratelimiter.Limit := 3; ratelimiter.Window := 10;
                   ratelimiter.BurstSize := 0 |};
              ratelimiter.windows :=
                {[ "k" := {| ratelimiter.count := 3; ratelimiter.startTime := 0 |} ]} |}
           20 25 "k" 1).
  - discriminate.
  - vm_compute. discriminate.
  - discriminate.
Defined.

(** X21.  GetResult against Allow.  For a limit of at least 1 (below the largest
    int64) and windows within quota, the Allowed field of [GetResult] is the
    decision [Allow] would take at the same instant.  Its Remaining field is
    the limit itself whatever the count of the window, and its error is
    nil. *)
Theorem GetResult_agrees_with_Allow (l : ratelimiter.FixedWindowLimiter) now key :
  1 <= ratelimiter.Limit (ratelimiter.config l) < MaxInt64 →
  within_quota l →
  ratelimiter.Allowed (ratelimiter.GetResult l now key).1
    = (ratelimiter.Allow l now key).2.1
  ∧ ratelimiter.Remaining (ratelimiter.GetResult l now key).1
    = ratelimiter.Limit (ratelimiter.config l)
  ∧ (ratelimiter.GetResult l now key).2 = None.
Proof.
  intros Hlim Hq.
  unfold ratelimiter.Allow, ratelimiter.AllowN, ratelimiter.GetResult.
  assert ((1 <=? ratelimiter.Limit (ratelimiter.config l)) = true) as Hone
    by (apply Z.leb_le; lia).
  destruct (ratelimiter.windows l !! key) as [[c st]|] eqn:Hk;
    cbn [ratelimiter.startTime ratelimiter.count].
  - pose proof (Hq key _ Hk) as Hc. simpl in Hc.
    destruct (_ <=? Sub now st); cbn [ratelimiter.startTime ratelimiter.count].
    + change (add64 0 1) with 1. by rewrite Hone.
    + rewrite add64_succ by (unfold MinInt64, MaxInt64 in *; lia).
      destruct (Z.leb_spec (c + 1) (ratelimiter.Limit (ratelimiter.config l)));
        destruct (Z.ltb_spec c (ratelimiter.Limit (ratelimiter.config l)));
        simpl; (done || lia).
  - destruct (_ <=? Sub now now); cbn [ratelimiter.startTime ratelimiter.count];
      change (add64 0 1) with 1; by rewrite Hone.
Qed.

Lemma GetResult_agrees_with_Allow_witness :
  let l := {| ratelimiter.config :=
                {| ratelimiter.Limit := 3; ratelimiter.Window := Second;
                   ratelimiter.BurstSize := 0 |};
              ratelimiter.windows :=
                {[ "k" := {| ratelimiter.count := 3; ratelimiter.startTime := 0 |} ]} |} in
  ratelimiter.Allowed (ratelimiter.GetResult l 5 "k").1 = (ratelimiter.Allow l 5 "k").2.1
  ∧ ratelimiter.Remaining (ratelimiter.GetResult l 5 "k").1
    = ratelimiter.Limit (ratelimiter.config l)
  ∧ (ratelimiter.GetResult l 5 "k").2 = None.
Proof.
  cbv zeta.
  apply (GetResult_agrees_with_Allow
           {| ratelimiter.config :=
                {| ratelimiter.Limit := 3; ratelimiter.Window := Second;
                   ratelimiter.BurstSize := 0 |};
              ratelimiter.windows :=
                {[ "k" := {| ratelimiter.count := 3; ratelimiter.startTime := 0 |} ]} |}
           5 "k").
  - vm_compute. split; [discriminate | reflexivity].
  - intros k wd. simpl. destruct (decide (k = "k")) as [->|Hne].
    + rewrite lookup_singleton_eq. intros [= <-]. simpl. lia.
    + by rewrite lookup_singleton_ne.
Defined.

(** * Keys *)

Lemma string_app_length (s1 s2 : string) :
  String.length (s1 +:+ s2) = (String.length s1 + String.length s2)%nat.
Proof.
  induction s1 as [|a s1 IH]; [done|].
  change (String a s1 +:+ s2) with (String a (s1 +:+ s2)).
  simpl. by rewrite IH.
Qed.

Lemma string_app_inj_r (s1 s2 x : string) : s1 +:+ x = s2 +:+ x → s1 = s2.
Proof.
  revert s2. induction s1 as [|a s1 IH]; intros [|b s2] Heq; [done| | |].
  - apply (f_equal String.length) in Heq.
    change (String b s2 +:+ x) with (String b (s2 +:+ x)) in Heq.
    change ("" +:+ x) with x in Heq.
    simpl in Heq. rewrite string_app_length in Heq. lia.
  - apply (f_equal String.length) in Heq.
    change (String a s1 +:+ x) with (String a (s1 +:+ x)) in Heq.
    change ("" +:+ x) with x in Heq.
    simpl in Heq. rewrite string_app_length in Heq. lia.
  - change (String a s1 +:+ x) with (String a (s1 +:+ x)) in Heq.
    change (String b s2 +:+ x) with (String b (s2 +:+ x)) in Heq.
    injection Heq as -> Heq. f_equal. by apply IH.
Qed.

(** X22.  Storage keys separate clients and engines.  [keyForClient] gives
    different clients different keys; [generateKey] gives different clients
    different keys within one window; and no key of the lazy-TTL engine
    ("rate:...") is a key of the epoch-truncated engine ("reatelimit:..."). *)
Theorem keys_separate_clients (a b : string) (t1 t2 window : Z) :
  (internal_limiter.keyForClient a = internal_limiter.keyForClient b → a = b)
  ∧ (limiter.windowStart t1 window = limiter.windowStart t2 window →
     limiter.generateKey a t1 window = limiter.generateKey b t2 window → a = b)
  ∧ internal_limiter.keyForClient a ≠ limiter.generateKey b t1 window.
Proof.
  split; [apply keyForClient_inj|]. split.
  - unfold limiter.generateKey. intros -> Hk.
    apply (inj (String.app _)) in Hk.
    by apply string_app_inj_r in Hk.
  - unfold internal_limiter.keyForClient, limiter.generateKey.
    generalize (pretty (Unix (limiter.windowStart t1 window))). intros d Hk.
    apply (f_equal (String.get 1)) in Hk. vm_compute in Hk. discriminate Hk.
Qed.

Lemma keys_separate_clients_witness :
  limiter.generateKey "alpha" 125 60 ≠ limiter.generateKey "bob" 130 60.
Proof.
  intros Hk.
  assert ("alpha" = "bob")%string as Heq;
    [|discriminate Heq].
  apply (proj1 (proj2 (keys_separate_clients "alpha" "bob" 125 130 60))).
  - reflexivity.
  - exact Hk.
Defined.

Lemma cleanupSweep_result_witness :
  let s : memory.MemoryStore :=
    {[ "a" := Some {| memory.Count := 2; memory.Expiry := 50 |} ]} in
  memory.cleanupSweep 30 s !! "a" = Some (Some {| memory.Count := 2; memory.Expiry := 50 |}).
Proof.
  cbv zeta.
  apply (proj1 (proj2 (cleanupSweep_result
           {[ "a" := Some {| memory.Count := 2; memory.Expiry := 50 |} ]} 30))).
  - reflexivity.
  - simpl. lia.
Defined.

(** * A key left without expiry *)

(** X23.  [RedisStore.Increment] repairs a missing expiry.  Over mockRedis, when
    the key holds a count c (below the largest int64) but no time to live,
    as after an EXPIRE that failed, the next Increment returns c + 1 with the
    expiry now + ttl and leaves the key with count c + 1 and a time to live
    of ttl from the EXPIRE's clock reading. *)
Theorem RedisStore_Increment_restores_ttl (m : limiter.mockRedis)
  now t_pipe t_exp key ttl c :
  m !! key = Some {| limiter.count := c; limiter.ttl := zeroTime |} →
  MinInt64 <= c < MaxInt64 →
  redis.Increment (redis.NewRedisStore m) now t_pipe t_exp key ttl =
    (redis.NewRedisStore
       (<[key := {| limiter.count := c + 1; limiter.ttl := t_exp + ttl |}]> m),
     (c + 1, now + ttl, None)).
Proof.
  intros Hk Hc. unfold redis.Increment.
  cbn [redis.client limiter.Incr limiter.TTL limiter.Expire
       limiter.mockRedis_RedisClient].
  assert (limiter.mockIncr m t_pipe key =
            (<[key := {| limiter.count := c + 1; limiter.ttl := zeroTime |}]> m,
             (c + 1, None))) as ->.
  { unfold limiter.mockIncr, limiter.mockLoad. rewrite Hk. simpl.
    by rewrite add64_succ. }
  rewrite (mockTTL_present _ t_pipe key (c + 1) zeroTime (lookup_insert_eq _ _ _)).
  change (IsZero zeroTime) with true. cbn [Z.eqb orb].
  rewrite (mockExpire_present _ t_exp key ttl _ (lookup_insert_eq _ _ _)).
  by rewrite insert_insert_eq.
Qed.

Lemma RedisStore_Increment_restores_ttl_witness :
  redis.Increment
    (redis.NewRedisStore
       ({[ "rate:c1" := {| limiter.count := 1; limiter.ttl := zeroTime |} ]}
          : limiter.mockRedis))
    10 11 12 "rate:c1" Second
  = (redis.NewRedisStore
       (<["rate:c1" := {| limiter.count := 1 + 1; limiter.ttl := 12 + Second |}]>
          {[ "rate:c1" := {| limiter.count := 1; limiter.ttl := zeroTime |} ]}),
     (1 + 1, 10 + Second, None)).
Proof.
  apply (RedisStore_Increment_restores_ttl
           {[ "rate:c1" := {| limiter.count := 1; limiter.ttl := zeroTime |} ]}
           10 11 12 "rate:c1" Second 1).
  - reflexivity.
  - vm_compute. split; [discriminate | reflexivity].
Defined.

(** X24.  [fixedWindow.Allow] does not.  Over mockRedis, when the key of the
    current window holds a count c >= 1 but no time to live, a call with a
    valid limit increments the count and issues no EXPIRE: the key is left
    with count c + 1 and still without a time to live.  Only the INCR that
    returns 1 is followed by EXPIRE. *)
Theorem fixedWindow_Allow_never_restores_ttl (cl : gmap string limiter.ClientLimit)
  (dl : limiter.ClientLimit) clientID (m : limiter.mockRedis) now t_incr t_exp c :
  let rl := {| limiter.redis := m; limiter.clientLimits := cl;
               limiter.defaultLimit := dl |} in
  let key := limiter.generateKey clientID now
               (limiter.Window (limiter.GetLimit rl clientID)) in
  0 < limiter.Requests (limiter.GetLimit rl clientID) →
  0 < limiter.Window (limiter.GetLimit rl clientID) →
  m !! key = Some {| limiter.count := c; limiter.ttl := zeroTime |} →
  1 <= c < MaxInt64 →
  limiter.redis (limiter.fixedWindow_Allow rl now t_incr t_exp clientID).1
    = <[key := {| limiter.count := c + 1; limiter.ttl := zeroTime |}]> m
  ∧ err (limiter.fixedWindow_Allow rl now t_incr t_exp clientID).2 = None.
Proof.
  intros rl key HR HW Hk Hc. unfold limiter.fixedWindow_Allow. fold key.
  destruct (Z.leb_spec (limiter.Requests (limiter.GetLimit rl clientID)) 0); [lia|].
  destruct (Z.leb_spec (limiter.Window (limiter.GetLimit rl clientID)) 0); [lia|].
  cbn [orb limiter.redis rl limiter.Incr limiter.mockRedis_RedisClient].
  assert (limiter.mockIncr m t_incr key =
            (<[key := {| limiter.count := c + 1; limiter.ttl := zeroTime |}]> m,
             (c + 1, None))) as ->.
  { unfold limiter.mockIncr, limiter.mockLoad. rewrite Hk. simpl.
    by rewrite add64_succ by (unfold MinInt64, MaxInt64 in *; lia). }
  destruct (Z.eqb_spec (c + 1) 1); [lia|]. done.
Qed.

Lemma fixedWindow_Allow_never_restores_ttl_witness :
  let m : limiter.mockRedis :=
    {[ "reatelimit:c1:-62135596800" := {| limiter.count := 1; limiter.ttl := zeroTime |} ]} in
  let rl := {| limiter.redis := m; limiter.clientLimits := ∅;
               limiter.defaultLimit := {| limiter.Requests := 2; limiter.Window := Second |} |} in
  let key := limiter.generateKey "c1" 5
               (limiter.Window (limiter.GetLimit rl "c1")) in
  limiter.redis (limiter.fixedWindow_Allow rl 5 6 7 "c1").1
    = <[key := {| limiter.count := 1 + 1; limiter.ttl := zeroTime |}]> m
  ∧ err (limiter.fixedWindow_Allow rl 5 6 7 "c1").2 = None.
Proof.
  cbv zeta.
  apply (fixedWindow_Allow_never_restores_ttl ∅
           {| limiter.Requests := 2; limiter.Window := Second |} "c1"
           {[ "reatelimit:c1:-62135596800" := {| limiter.count := 1; limiter.ttl := zeroTime |} ]}
           5 6 7 1).
  - reflexivity.
  - reflexivity.
  - reflexivity.
  - vm_compute. split; [discriminate | reflexivity].
Defined.
